(** * ruby-references: a shallow embedding of the reference pipeline

    The development follows the crate's modules: the parsed-file data
    model ([references/parser/mod.rs]), the AST collector
    ([references/parser/collector.rs]), the self-reference filter
    ([parser/self_reference_filterer.rs]), the content-addressed cache
    ([cache/mod.rs], [cache/cached_file.rs]) with the JSON record it
    stores, the Zeitwerk constant inference ([zeitwerk/mod.rs]) and the
    reference builder ([references/reference.rs]).

    Conventions: Rust [usize] is [N]; [String] and [PathBuf] are [string]
    (byte strings); [Vec] is [list], pushed at the end and popped from the
    end as the Rust code does; a [HashMap] is a [gmap]; a Rust panic is the
    [Panic] outcome of the [outcome] type. *)

From Stdlib Require Import Ascii.
From stdpp Require Import base gmap strings list.
From Stdlib Require Import NArith Lia.

Set Warnings "-register-all".
Open Scope N_scope.

(* ------------------------------------------------------------------ *)
(** ** Strings *)

Module Str.

(** [s1 == s2] on Rust strings. *)
Definition eqb (a b : string) : bool := String.eqb a b.

(** [parts.join(sep)]. *)
Definition join (sep : string) (parts : list string) : string :=
  String.concat sep parts.

Definition colon : ascii := Ascii.ascii_of_nat 58.

(** [s.split("::")]: the separator is matched left to right and never
    overlapping, and the empty string splits into one empty part. *)
Fixpoint split_colons (s : string) : list string :=
  match s with
  | EmptyString => [""%string]
  | String c rest =>
      match rest with
      | String c' rest' =>
          if Ascii.eqb c colon && Ascii.eqb c' colon
          then ""%string :: split_colons rest'
          else match split_colons rest with
               | [] => [String c EmptyString]
               | seg :: segs => String c seg :: segs
               end
      | EmptyString => [String c EmptyString]
      end
  end.

End Str.

(* ------------------------------------------------------------------ *)
(** ** Data model ([references/parser/mod.rs]) *)

Record Range := mkRange {
  start_row : N;
  start_col : N;
  end_row : N;
  end_col : N
}.

Record ParsedDefinition := mkParsedDefinition {
  pd_fully_qualified_name : string;
  pd_location : Range
}.

Record UnresolvedReference := mkUnresolvedReference {
  ur_name : string;
  ur_namespace_path : list string;
  ur_location : Range
}.

Record ProcessedFile := mkProcessedFile {
  absolute_path : string;
  unresolved_references : list UnresolvedReference
}.

Record SourceLocation := mkSourceLocation {
  line : N;
  column : N
}.

(* ------------------------------------------------------------------ *)
(** ** Self-reference filter ([parser/self_reference_filterer.rs]) *)

(** [namespace_calculator::possible_fully_qualified_constants] is a module
    the filter imports but whose file is not in the sources; the filter is
    therefore stated over any candidate function, and one concrete model
    from the spec is given after the section. *)
Section SelfReferenceFilter.

Variable possible_fully_qualified_constants : list string -> string -> list string.

(** The body of the [for (index, _) in parts.iter().enumerate()] loop:
    the prefix [parts[..=index].join("::")] is inserted unless the map
    already holds it. *)
Definition insert_prefix (parts : list string) (loc : Range)
    (m : gmap string Range) (index : nat) : gmap string Range :=
  let combined := Str.join "::" (take (S index) parts) in
  match m !! combined with
  | Some _ => m
  | None => <[combined := loc]> m
  end.

Definition insert_definition (m : gmap string Range) (d : ParsedDefinition)
    : gmap string Range :=
  let parts := Str.split_colons (pd_fully_qualified_name d) in
  fold_left (insert_prefix parts (pd_location d)) (seq 0 (length parts)) m.

Definition definition_to_location_map (definitions : list ParsedDefinition)
    : gmap string Range :=
  fold_left insert_definition definitions ∅.

(** [map.get(&c).or(map.get(&format!("::{}", c)))] *)
Definition lookup_candidate (m : gmap string Range) (c : string) : option Range :=
  match m !! c with
  | Some l => Some l
  | None => m !! ("::" +:+ c)
  end.

(** [reference_is_definition]: only the start coordinates are compared. *)
Definition reference_is_definition (location r_location : Range) : bool :=
  (start_row location =? start_row r_location)
  && (start_col location =? start_col r_location).

(** One iteration of [for constant_name in possible_constants]. *)
Definition ignore_step (m : gmap string Range) (r : UnresolvedReference)
    (should_ignore_local_reference : bool) (constant_name : string) : bool :=
  match lookup_candidate m constant_name with
  | Some location => negb (reference_is_definition location (ur_location r))
  | None => should_ignore_local_reference
  end.

(** The closure passed to [.filter]. *)
Definition keep_reference (m : gmap string Range) (r : UnresolvedReference) : bool :=
  let possible_constants :=
    possible_fully_qualified_constants (ur_namespace_path r) (ur_name r) in
  negb (fold_left (ignore_step m r) possible_constants false).

(** [filter(reference_collector)], given the collector's references and
    definitions. *)
Definition filter (references : list UnresolvedReference)
    (definitions : list ParsedDefinition) : list UnresolvedReference :=
  let m := definition_to_location_map definitions in
  List.filter (keep_reference m) references.

End SelfReferenceFilter.

(** Modelled from the spec: [namespace_calculator::possible_fully_qualified_constants]
    (its file is not in the sources). For [k = len(ns) .. 0] the candidate
    is ["::" + join(ns[..k] + [name], "::")]. *)
Definition possible_fully_qualified_constants_spec (ns : list string) (name : string)
    : list string :=
  map (fun k => "::" +:+ Str.join "::" (take k ns ++ [name]))
      (reverse (seq 0 (S (length ns)))).

(* ------------------------------------------------------------------ *)
(** ** The AST collector ([references/parser/collector.rs]) *)

(** A byte span of the parser ([lib_ruby_parser::Loc]). *)
Record Loc := mkLoc { loc_begin : N; loc_end : N }.

(** The node kinds of [lib_ruby_parser::Node] that the collector handles or
    recurses through. *)
Inductive Node :=
| Class (name : Node) (superclass : option Node) (body : option Node)
| Module (name : Node) (body : option Node)
| Const (scope : option Node) (name : string) (expression_l : Loc)
| Cbase
| Send (recv : option Node) (method_name : string) (args : list Node) (expression_l : Loc)
| Casgn (scope : option Node) (name : string) (value : option Node) (expression_l : Loc)
| Sym (name : string)
| Str_ (value : string)
| Kwargs (pairs : list Node)
| Pair (key : Node) (value : Node)
| Lvar (name : string)
| Ivar (name : string)
| Self_
| Begin (statements : list Node).

(** A computation that returns a value or panics. *)
Inductive outcome (A : Type) :=
| Done (a : A)
| Panic.
Arguments Done {A} a.
Arguments Panic {A}.

Definition obind {A B} (m : outcome A) (k : A -> outcome B) : outcome B :=
  match m with
  | Done a => k a
  | Panic => Panic
  end.

#[global] Instance outcome_mret : MRet outcome := fun A a => Done a.
#[global] Instance outcome_mbind : MBind outcome := fun A B k m => obind m k.

Inductive ParseError := Metaprogramming.

(** [Result<String, ParseError>] *)
Inductive name_result :=
| NameOk (s : string)
| NameErr (e : ParseError).

(** [line_col::LineColLookup::get]: the 1-based line and the 1-based byte
    column of a byte index, lines being separated by ['\n']. *)
Fixpoint line_col_from (l c : N) (src : string) (index : nat) : N * N :=
  match index, src with
  | O, _ => (l, c)
  | S i, String ch rest =>
      if Ascii.eqb ch (Ascii.ascii_of_nat 10)
      then line_col_from (l + 1) 1 rest i
      else line_col_from l (c + 1) rest i
  | S _, EmptyString => (l, c)
  end.

Definition line_col_get (src : string) (index : N) : N * N :=
  line_col_from 1 1 src (N.to_nat index).

Definition loc_to_range (loc : Loc) (lookup : string) : Range :=
  let '(start_row, start_col) := line_col_get lookup (loc_begin loc) in
  let '(end_row, end_col) := line_col_get lookup (loc_end loc) in
  mkRange start_row (start_col - 1) end_row end_col.

Fixpoint fetch_const_name (node : Node) : name_result :=
  match node with
  | Const scope name _ =>
      match scope with
      | Some s =>
          match fetch_const_name s with
          | NameOk parent_namespace => NameOk (parent_namespace +:+ "::" +:+ name)
          | NameErr e => NameErr e
          end
      | None => NameOk name
      end
  | Cbase => NameOk ""
  | _ => NameErr Metaprogramming
  end.

Definition fetch_const_const_name (scope : option Node) (name : string) : name_result :=
  match scope with
  | Some s =>
      match fetch_const_name s with
      | NameOk parent_namespace => NameOk (parent_namespace +:+ "::" +:+ name)
      | NameErr e => NameErr e
      end
  | None => NameOk name
  end.

(** [fetch_node_location]: panics on anything but a [Const]. *)
Definition fetch_node_location (node : Node) : outcome Loc :=
  match node with
  | Const _ _ expression_l => Done expression_l
  | _ => Panic
  end.

Definition get_definition_from (current_nesting : string)
    (parent_nesting : list string) (location : Range) : ParsedDefinition :=
  let fully_qualified_name :=
    match parent_nesting with
    | [] => "::" +:+ current_nesting
    | _ => "::" +:+ Str.join "::" (parent_nesting ++ [current_nesting])
    end in
  mkParsedDefinition fully_qualified_name location.

(** Upper-casing of one ASCII letter. *)
Definition ascii_upcase (c : ascii) : ascii :=
  let n := Ascii.nat_of_ascii c in
  if (97 <=? n)%nat && (n <=? 122)%nat then Ascii.ascii_of_nat (n - 32) else c.

Fixpoint string_upcase (s : string) : string :=
  match s with
  | EmptyString => EmptyString
  | String c rest => String (ascii_upcase c) (string_upcase rest)
  end.

Definition capitalize (s : string) : string :=
  match s with
  | EmptyString => EmptyString
  | String c rest => String (ascii_upcase c) rest
  end.

Definition underscore : ascii := Ascii.ascii_of_nat 95.

Fixpoint split_underscore (s : string) : list string :=
  match s with
  | EmptyString => [""%string]
  | String c rest =>
      if Ascii.eqb c underscore then ""%string :: split_underscore rest
      else match split_underscore rest with
           | [] => [String c EmptyString]
           | seg :: segs => String c seg :: segs
           end
  end.

Definition singularize (s : string) : string :=
  match String.length s with
  | O => s
  | S k => if String.eqb (String.substring k 1 s) "s" then String.substring 0 k s else s
  end.

(** Modelled from the spec: [inflector_shim::to_class_case] (its file is not
    in the sources). The text is singularized when asked, then written in
    ClassCase: words separated by ['_'] are capitalised and joined, and a
    word whose upper-case form is in the acronym set is written in upper
    case. Singularization is modelled by the regular rule only (a final
    ["s"] is dropped). *)
Definition to_class_case (s : string) (should_singularize : bool)
    (acronyms : list string) : string :=
  let s := if should_singularize then singularize s else s in
  String.concat "" (map (fun w =>
      if existsb (Str.eqb (string_upcase w)) acronyms then string_upcase w
      else capitalize w) (split_underscore s)).

Definition ASSOCIATION_METHOD_NAMES : list string :=
  ["has_one"; "has_many"; "belongs_to"; "has_and_belongs_to_many"].

Fixpoint extract_class_name_from_kwargs (pairs : list Node) : option string :=
  match pairs with
  | [] => None
  | Pair (Sym k) (Str_ v) :: rest =>
      if Str.eqb k "class_name" then Some v else extract_class_name_from_kwargs rest
  | _ :: rest => extract_class_name_from_kwargs rest
  end.

(** The [for node in node.args.iter()] loop: the last [Kwargs] argument
    that names a class wins. *)
Definition class_name_from_args (args : list Node) : option string :=
  fold_left (fun name n =>
      match n with
      | Kwargs kwargs =>
          match extract_class_name_from_kwargs kwargs with
          | Some found => Some found
          | None => name
          end
      | _ => name
      end) args None.

(** [get_reference_from_active_record_association]; the symbol case calls
    [to_class_case] with an empty acronym set, as the source does. *)
Definition get_reference_from_active_record_association
    (method_name : string) (args : list Node) (expression_l : Loc)
    (current_namespaces : list string) (line_col_lookup : string)
    (custom_associations : list string) : option UnresolvedReference :=
  let combined_associations := custom_associations ++ ASSOCIATION_METHOD_NAMES in
  if existsb (Str.eqb method_name) combined_associations then
    let name0 := class_name_from_args args in
    let name :=
      match head args with
      | Some (Sym d) =>
          match name0 with
          | None => Some (to_class_case d true [])
          | Some _ => name0
          end
      | _ => name0
      end in
    match name with
    | Some unwrapped_name =>
        Some (mkUnresolvedReference unwrapped_name current_namespaces
                (loc_to_range expression_l line_col_lookup))
    | None => None
    end
  else None.

Definition fetch_casgn_name (scope : option Node) (name : string) : name_result :=
  fetch_const_const_name scope name.

Definition get_constant_assignment_definition (scope : option Node) (name : string)
    (expression_l : Loc) (current_namespaces : list string) (line_col_lookup : string)
    : option ParsedDefinition :=
  match fetch_casgn_name scope name with
  | NameErr _ => None
  | NameOk name =>
      let fully_qualified_name :=
        match current_namespaces with
        | [] => "::" +:+ name
        | _ => "::" +:+ Str.join "::" (current_namespaces ++ [name])
        end in
      Some (mkParsedDefinition fully_qualified_name
              (loc_to_range expression_l line_col_lookup))
  end.

Record SuperclassReference := mkSuperclassReference {
  sc_name : string;
  sc_namespace_path : list string
}.

(** [ReferenceCollector]; the line/column table and the custom
    associations are read-only and kept in [CollectorEnv]. *)
Record ReferenceCollector := mkReferenceCollector {
  references : list UnresolvedReference;
  definitions : list ParsedDefinition;
  current_namespaces : list string;
  in_superclass : bool;
  superclasses : list SuperclassReference
}.

Record CollectorEnv := mkCollectorEnv {
  line_col_lookup : string;
  custom_associations : list string
}.

Definition new_collector : ReferenceCollector := mkReferenceCollector [] [] [] false [].

Definition push_reference (r : UnresolvedReference) (c : ReferenceCollector) :=
  mkReferenceCollector (references c ++ [r]) (definitions c) (current_namespaces c)
    (in_superclass c) (superclasses c).
Definition push_definition (d : ParsedDefinition) (c : ReferenceCollector) :=
  mkReferenceCollector (references c) (definitions c ++ [d]) (current_namespaces c)
    (in_superclass c) (superclasses c).
Definition set_current_namespaces (ns : list string) (c : ReferenceCollector) :=
  mkReferenceCollector (references c) (definitions c) ns (in_superclass c) (superclasses c).
Definition set_in_superclass (b : bool) (c : ReferenceCollector) :=
  mkReferenceCollector (references c) (definitions c) (current_namespaces c) b (superclasses c).
Definition set_superclasses (s : list SuperclassReference) (c : ReferenceCollector) :=
  mkReferenceCollector (references c) (definitions c) (current_namespaces c) (in_superclass c) s.

(** [Vec::pop], the popped value discarded: nothing happens on an empty
    vector. *)
Definition vec_pop {A} (l : list A) : list A := removelast l.

(** [on_const] after its name is resolved. *)
Definition on_const_named (env : CollectorEnv) (name : string) (expression_l : Loc)
    (c : ReferenceCollector) : ReferenceCollector :=
  let c :=
    if in_superclass c
    then set_superclasses (superclasses c ++ [mkSuperclassReference name (current_namespaces c)]) c
    else c in
  let namespace_path :=
    match List.find (fun superclass => Str.eqb (sc_name superclass) name) (superclasses c) with
    | Some matching_superclass => sc_namespace_path matching_superclass
    | None =>
        List.filter (fun namespace =>
            negb (Str.eqb namespace name)
            || existsb (fun superclass => Str.eqb (sc_name superclass) name) (superclasses c))
          (current_namespaces c)
    end in
  push_reference (mkUnresolvedReference name namespace_path
                    (loc_to_range expression_l (line_col_lookup env))) c.

(** The part of [on_class] and [on_module] shared between the two, after the
    name [namespace] is resolved: emit the definition and the reference at
    the span of the name node. *)
Definition declare (env : CollectorEnv) (namespace : string) (name_node : Node)
    (c : ReferenceCollector) : outcome ReferenceCollector :=
  definition_loc ← fetch_node_location name_node;
  let location := loc_to_range definition_loc (line_col_lookup env) in
  let definition := get_definition_from namespace (current_namespaces c) location in
  let name := pd_fully_qualified_name definition in
  let namespace_path := current_namespaces c in
  let c := push_definition definition c in
  let c := push_reference (mkUnresolvedReference name namespace_path location) c in
  Done (set_current_namespaces (current_namespaces c ++ [namespace]) c).

(** [Visitor::visit] with the collector's [on_class], [on_send], [on_casgn],
    [on_module] and [on_const]; other nodes are traversed as
    [lib_ruby_parser]'s default visitor does (children in order). *)
Fixpoint visit (env : CollectorEnv) (node : Node) (c : ReferenceCollector)
    {struct node} : outcome ReferenceCollector :=
  let fix visit_all (nodes : list Node) (c : ReferenceCollector)
      : outcome ReferenceCollector :=
    match nodes with
    | [] => Done c
    | n :: rest => c ← visit env n c; visit_all rest c
    end in
  match node with
  | Class name superclass body =>
      match fetch_const_name name with
      | NameErr _ => Done c
      | NameOk namespace =>
          c ← match superclass with
              | Some inner =>
                  c ← visit env inner (set_in_superclass true c);
                  Done (set_in_superclass false c)
              | None => Done c
              end;
          c ← declare env namespace name c;
          c ← match body with
              | Some inner => visit env inner c
              | None => Done c
              end;
          let c := set_current_namespaces (vec_pop (current_namespaces c)) c in
          Done (set_superclasses (vec_pop (superclasses c)) c)
      end
  | Module name body =>
      match fetch_const_name name with
      | NameErr _ => Panic
      | NameOk namespace =>
          c ← declare env namespace name c;
          c ← match body with
              | Some inner => visit env inner c
              | None => Done c
              end;
          Done (set_current_namespaces (vec_pop (current_namespaces c)) c)
      end
  | Send recv method_name args expression_l =>
      let c :=
        match get_reference_from_active_record_association method_name args expression_l
                (current_namespaces c) (line_col_lookup env) (custom_associations env) with
        | Some association_reference => push_reference association_reference c
        | None => c
        end in
      c ← match recv with
          | Some r => visit env r c
          | None => Done c
          end;
      visit_all args c
  | Casgn scope name value expression_l =>
      let c :=
        match get_constant_assignment_definition scope name expression_l
                (current_namespaces c) (line_col_lookup env) with
        | Some definition => push_definition definition c
        | None => c
        end in
      match value with
      | Some v => visit env v c
      | None => Done c
      end
  | Const scope name expression_l =>
      match fetch_const_const_name scope name with
      | NameErr _ => Done c
      | NameOk name => Done (on_const_named env name expression_l c)
      end
  | Kwargs pairs => visit_all pairs c
  | Pair key value => c ← visit env key c; visit env value c
  | Begin statements => visit_all statements c
  | Cbase | Sym _ | Str_ _ | Lvar _ | Ivar _ | Self_ => Done c
  end.

(** [process_from_contents] after parsing: [None] is a parse failure. *)
Definition process_from_ast
    (possible_fully_qualified_constants : list string -> string -> list string)
    (env : CollectorEnv) (include_reference_is_definition : bool)
    (absolute_path : string) (ast : option Node) : outcome ProcessedFile :=
  match ast with
  | None => Done (mkProcessedFile absolute_path [])
  | Some ast =>
      collector ← visit env ast new_collector;
      let unresolved_references :=
        if include_reference_is_definition then references collector
        else filter possible_fully_qualified_constants
               (references collector) (definitions collector) in
      Done (mkProcessedFile absolute_path unresolved_references)
  end.

(* ------------------------------------------------------------------ *)
(** ** Paths ([std::path::Path]) *)

Module PathModel.

Definition slash : ascii := Ascii.ascii_of_nat 47.

Fixpoint split_slash (s : string) : list string :=
  match s with
  | EmptyString => [""%string]
  | String c rest =>
      if Ascii.eqb c slash then ""%string :: split_slash rest
      else match split_slash rest with
           | [] => [String c EmptyString]
           | seg :: segs => String c seg :: segs
           end
  end.

(** [Path::components]: a leading ["/"] is the root component; empty
    parts (repeated or trailing separators) and ["."] parts are not
    components. *)
Definition components (p : string) : list string :=
  let parts := List.filter (fun x => negb (Str.eqb x "") && negb (Str.eqb x "."))
                 (split_slash p) in
  match p with
  | String c _ => if Ascii.eqb c slash then "/"%string :: parts else parts
  | EmptyString => parts
  end.

(** A path built from components, as [to_str] shows it. *)
Definition of_components (cs : list string) : string :=
  match cs with
  | "/"%string :: rest => "/" +:+ Str.join "/" rest
  | _ => Str.join "/" cs
  end.

Fixpoint strip_components (base p : list string) : option (list string) :=
  match base, p with
  | [], _ => Some p
  | b :: base', c :: p' => if Str.eqb b c then strip_components base' p' else None
  | _ :: _, [] => None
  end.

(** [path.strip_prefix(base)]: [None] is the [StripPrefixError]. *)
Definition strip_prefix (p base : string) : option string :=
  match strip_components (components base) (components p) with
  | Some rest => Some (of_components rest)
  | None => None
  end.

(** [Path::join] for a relative [b]. *)
Definition join (a b : string) : string :=
  match String.length a with
  | O => b
  | S k => if Str.eqb (String.substring k 1 a) "/" then a +:+ b else a +:+ "/" +:+ b
  end.

End PathModel.

(* ------------------------------------------------------------------ *)
(** ** Reference builder ([references/reference.rs]) *)

Record ConstantDefinition := mkConstantDefinition {
  cd_fully_qualified_name : string;
  cd_absolute_path_of_definition : string
}.

Record Reference := mkReference {
  constant_name : string;
  relative_defining_file : option string;
  relative_referencing_file : string;
  source_location : SourceLocation;
  extra_fields : gmap string string
}.

(** [anyhow::Result]. *)
Inductive result (A : Type) :=
| Ok (a : A)
| Err (msg : string).
Arguments Ok {A} a.
Arguments Err {A} msg.

(** The configuration fields the builder reads. [extra_reference_fields_fn]
    is called with the referencing file and the defining file. *)
Record BuilderConfiguration := mkBuilderConfiguration {
  absolute_root : string;
  extra_reference_fields_fn : option (string -> option string -> gmap string string)
}.

Definition extra_fields_of (cfg : BuilderConfiguration) (referencing_file_path : string)
    (defining : option string) : gmap string string :=
  match extra_reference_fields_fn cfg with
  | Some fn_ => fn_ referencing_file_path defining
  | None => ∅
  end.

(** [ReferencesBuilder::references_from_constant_definitions]: the
    [collect::<anyhow::Result<Vec<_>>>] stops at the first failing
    [strip_prefix]. *)
Fixpoint references_from_constant_definitions (cfg : BuilderConfiguration)
    (referencing_file_path relative_referencing_file : string)
    (source_location : SourceLocation) (constant_definitions : list ConstantDefinition)
    : result (list Reference) :=
  match constant_definitions with
  | [] => Ok []
  | constant :: rest =>
      let absolute_path_of_definition := cd_absolute_path_of_definition constant in
      match PathModel.strip_prefix absolute_path_of_definition (absolute_root cfg) with
      | None => Err "expecting strip_prefix"
      | Some relative_defining_file =>
          match references_from_constant_definitions cfg referencing_file_path
                  relative_referencing_file source_location rest with
          | Err e => Err e
          | Ok refs =>
              Ok (mkReference (cd_fully_qualified_name constant) (Some relative_defining_file)
                    relative_referencing_file source_location
                    (extra_fields_of cfg referencing_file_path
                       (Some absolute_path_of_definition)) :: refs)
          end
      end
  end.

(** [Reference::from_unresolved_reference] through [ReferencesBuilder]:
    [referencing_file_path], [unresolved_reference], then [build]. The
    resolver is [ConstantResolver::resolve]. *)
Definition from_unresolved_reference (cfg : BuilderConfiguration)
    (resolve : string -> list string -> option (list ConstantDefinition))
    (unresolved_reference : UnresolvedReference) (referencing_file_path : string)
    : result (list Reference) :=
  match PathModel.strip_prefix referencing_file_path (absolute_root cfg) with
  | None => Err "expecting strip_prefix"
  | Some relative_referencing_file =>
      let loc := ur_location unresolved_reference in
      let source_location := mkSourceLocation (start_row loc) (start_col loc) in
      match resolve (ur_name unresolved_reference) (ur_namespace_path unresolved_reference) with
      | Some constant_definitions =>
          references_from_constant_definitions cfg referencing_file_path
            relative_referencing_file source_location constant_definitions
      | None =>
          Ok [mkReference (ur_name unresolved_reference) None relative_referencing_file
                source_location (extra_fields_of cfg referencing_file_path None)]
      end
  end.

(* ------------------------------------------------------------------ *)
(** ** Constant inference from autoload roots ([zeitwerk/mod.rs]) *)

Definition dot : ascii := Ascii.ascii_of_nat 46.

(** Index of the last ['.'] of a string. *)
Fixpoint last_dot (s : string) : option nat :=
  match s with
  | EmptyString => None
  | String c rest =>
      match last_dot rest with
      | Some i => Some (S i)
      | None => if Ascii.eqb c dot then Some O else None
      end
  end.

(** [Path::file_stem] of a file name ([rsplit_file_at_dot]): the part
    before the last ['.'], or the whole name when it is [".."], has no
    ['.'], or its last ['.'] is its first character. *)
Definition file_stem (file_name : string) : string :=
  if Str.eqb file_name ".." then file_name
  else match last_dot file_name with
       | None | Some O => file_name
       | Some (S _ as i) => String.substring 0 i file_name
       end.

(** [relative_path.with_extension("")] on the components of a relative
    path, shown with [to_str]. *)
Definition with_extension_stripped (cs : list string) : string :=
  match reverse cs with
  | [] => PathModel.of_components cs
  | last_c :: rev_init => PathModel.of_components (reverse rev_init ++ [file_stem last_c])
  end.

Definition ends_with_rb (file_name : string) : bool :=
  let n := String.length file_name in
  (3 <=? n)%nat && Str.eqb (String.substring (n - 3) 3 file_name) ".rb".

(** The files [glob(autoload_path.join("**/*.rb"))] returns, [files] being
    the files of the file system: those strictly under the autoload path
    whose name ends in [.rb]. *)
Definition glob_rb (files : list string) (autoload_path : string) : list string :=
  List.filter (fun f =>
      match PathModel.strip_components (PathModel.components autoload_path)
              (PathModel.components f) with
      | Some ((_ :: _) as rest) =>
          match reverse rest with
          | file_name :: _ => ends_with_rb file_name
          | [] => false
          end
      | _ => false
      end) files.

Definition component_count (p : string) : nat := length (PathModel.components p).

(** The configuration fields the inference reads; [autoload_paths] is the
    [HashMap<PathBuf, String>] from autoload root to default namespace,
    listed in its iteration order. *)
Record ZeitwerkConfiguration := mkZeitwerkConfiguration {
  autoload_paths : list (string * string);
  acronyms : list string;
  file_system_files : list string
}.

Definition autoload_paths_to_their_globbed_files (cfg : ZeitwerkConfiguration)
    : list (string * list string) :=
  map (fun '(absolute_autoload_path, _) =>
         (absolute_autoload_path, glob_rb (file_system_files cfg) absolute_autoload_path))
      (autoload_paths cfg).

(** One iteration of [for file in files]: [entry(file).or_insert_with],
    then the update when the new autoload path has more components. *)
Definition update_longest_path (autoload_path : string) (m : gmap string string)
    (file : string) : gmap string string :=
  let current_longest_path := match m !! file with
                              | Some p => p
                              | None => autoload_path
                              end in
  let m := <[file := current_longest_path]> m in
  if (component_count current_longest_path <? component_count autoload_path)%nat
  then <[file := autoload_path]> m
  else m.

Definition file_to_longest_path (cfg : ZeitwerkConfiguration) : gmap string string :=
  fold_left (fun m '(autoload_path, files) =>
               fold_left (update_longest_path autoload_path) files m)
            (autoload_paths_to_their_globbed_files cfg) ∅.

(** [HashMap::get] on the autoload paths. *)
Fixpoint lookup_default_namespace (paths : list (string * string)) (p : string)
    : option string :=
  match paths with
  | [] => None
  | (k, v) :: rest => if Str.eqb k p then Some v else lookup_default_namespace rest p
  end.

(** [inflector_shim::camelize] is in a module whose file is not in the
    sources; the inference is stated for any camelization. *)
Section Inference.

Variable camelize : string -> list string -> string.

Definition inferred_constant_from_file (absolute_path absolute_autoload_path : string)
    (acronyms : list string) (default_namespace : string)
    : outcome ConstantDefinition :=
  match PathModel.strip_components (PathModel.components absolute_autoload_path)
          (PathModel.components absolute_path) with
  | None => Panic
  | Some relative_path =>
      let relative_path_str := with_extension_stripped relative_path in
      let camelized_path := camelize relative_path_str acronyms in
      Done (mkConstantDefinition (default_namespace +:+ "::" +:+ camelized_path)
              absolute_path)
  end.

Definition inferred_constants (cfg : ZeitwerkConfiguration)
    : outcome (list ConstantDefinition) :=
  mapM (fun '(absolute_path_of_definition, absolute_autoload_path) =>
          match lookup_default_namespace (autoload_paths cfg) absolute_autoload_path with
          | None => Panic
          | Some default_namespace =>
              inferred_constant_from_file absolute_path_of_definition
                absolute_autoload_path (acronyms cfg) default_namespace
          end)
       (map_to_list (file_to_longest_path cfg)).

End Inference.

(** The map that [write_cache_constant_definitions]
    ([references/zeitwerk/cache.rs]) serializes to [constant_resolver.json]:
    [file_definition_map.insert(absolute_path_of_definition, fully_qualified_name)]
    for each constant in turn. *)
Definition file_definition_map (constants : list ConstantDefinition) : gmap string string :=
  fold_left (fun file_definition_map constant =>
               <[cd_absolute_path_of_definition constant := cd_fully_qualified_name constant]>
                 file_definition_map)
            constants ∅.

(* ------------------------------------------------------------------ *)
(** ** The JSON text of a cache entry ([serde_json]) *)

Module Json.

Definition ch (n : nat) : ascii := Ascii.ascii_of_nat n.
Definition quote : ascii := ch 34.
Definition backslash : ascii := ch 92.

(** A JSON value as [serde_json] reads it. Numbers with a sign, a
    fraction or an exponent are read as [i64] or [f64] (["-0"] included),
    which no field of a cache entry accepts: they are [JOtherNumber]. *)
Inductive json :=
| JNull
| JBool (b : bool)
| JUInt (n : N)
| JOtherNumber
| JString (s : string)
| JArray (items : list json)
| JObject (members : list (string * json)).

(** *** Writing ([serde_json::to_string], compact form) *)

Definition hex_digit (n : nat) : ascii :=
  if (n <? 10)%nat then ch (48 + n) else ch (87 + n).

(** [serde_json]'s escape table: quote, backslash, the short escapes of
    [\b \t \n \f \r], and [\u00XX] for the other control characters. *)
Definition escape_char (c : ascii) : string :=
  let n := Ascii.nat_of_ascii c in
  if (n =? 34)%nat then String backslash (String quote EmptyString)
  else if (n =? 92)%nat then String backslash (String backslash EmptyString)
  else if (n =? 8)%nat then String backslash "b"
  else if (n =? 9)%nat then String backslash "t"
  else if (n =? 10)%nat then String backslash "n"
  else if (n =? 12)%nat then String backslash "f"
  else if (n =? 13)%nat then String backslash "r"
  else if (n <? 32)%nat
  then String backslash ("u00" +:+ String (hex_digit (n / 16)) (String (hex_digit (n mod 16)) EmptyString))
  else String c EmptyString.

Fixpoint escape (s : string) : string :=
  match s with
  | EmptyString => EmptyString
  | String c rest => escape_char c +:+ escape rest
  end.

Definition string_text (s : string) : string :=
  String quote (escape s +:+ String quote EmptyString).

Definition digit_char (d : N) : ascii := ch (N.to_nat (48 + d)).

Fixpoint print_digits (fuel : nat) (n : N) (acc : string) : string :=
  match fuel with
  | O => acc
  | S fuel =>
      if n <? 10 then String (digit_char n) acc
      else print_digits fuel (n / 10) (String (digit_char (n mod 10)) acc)
  end.

Definition N_text (n : N) : string := print_digits (S (N.to_nat (N.log2 n))) n EmptyString.

Fixpoint to_text (v : json) : string :=
  match v with
  | JNull => "null"
  | JBool true => "true"
  | JBool false => "false"
  | JUInt n => N_text n
  | JOtherNumber => "-0"
  | JString s => string_text s
  | JArray items => "[" +:+ Str.join "," (map to_text items) +:+ "]"
  | JObject members =>
      "{" +:+ Str.join "," (map (fun '(k, v) => string_text k +:+ ":" +:+ to_text v) members)
      +:+ "}"
  end.

(** *** Reading ([serde_json::from_slice]) *)

Definition is_ws (c : ascii) : bool :=
  let n := Ascii.nat_of_ascii c in
  (n =? 32)%nat || (n =? 10)%nat || (n =? 13)%nat || (n =? 9)%nat.

Fixpoint skip_ws (s : string) : string :=
  match s with
  | String c rest => if is_ws c then skip_ws rest else s
  | EmptyString => EmptyString
  end.

Definition is_digit (c : ascii) : bool :=
  let n := Ascii.nat_of_ascii c in (48 <=? n)%nat && (n <=? 57)%nat.

Definition digit_value (c : ascii) : N := N.of_nat (Ascii.nat_of_ascii c - 48).

Fixpoint parse_digits (s : string) (acc : N) : N * string :=
  match s with
  | String c rest => if is_digit c then parse_digits rest (acc * 10 + digit_value c) else (acc, s)
  | EmptyString => (acc, EmptyString)
  end.

Fixpoint skip_digits (s : string) : string :=
  match s with
  | String c rest => if is_digit c then skip_digits rest else s
  | EmptyString => EmptyString
  end.

Definition starts_with_digit (s : string) : bool :=
  match s with
  | String c _ => is_digit c
  | EmptyString => false
  end.

(** An optional fraction: ['.'] and at least one digit. The boolean
    tells whether there was one. *)
Definition parse_fraction (s : string) : option (bool * string) :=
  match s with
  | String c rest =>
      if Ascii.eqb c (ch 46) then
        if starts_with_digit rest then Some (true, skip_digits rest) else None
      else Some (false, s)
  | EmptyString => Some (false, EmptyString)
  end.

(** An optional exponent: ['e'] or ['E'], an optional sign and at least
    one digit. *)
Definition parse_exponent (s : string) : option (bool * string) :=
  match s with
  | String c rest =>
      if Ascii.eqb c (ch 101) || Ascii.eqb c (ch 69) then
        let rest := match rest with
                    | String sgn r => if Ascii.eqb sgn (ch 43) || Ascii.eqb sgn (ch 45) then r else rest
                    | EmptyString => rest
                    end in
        if starts_with_digit rest then Some (true, skip_digits rest) else None
      else Some (false, s)
  | EmptyString => Some (false, EmptyString)
  end.

(** The number after its optional ['-']: a single ['0'] or a digit
    sequence not starting with ['0'], then fraction and exponent. *)
Definition parse_unsigned (s : string) : option (N * bool * string) :=
  match s with
  | String c rest =>
      if Ascii.eqb c (ch 48) then
        if starts_with_digit rest then None
        else
          match parse_fraction rest with
          | None => None
          | Some (f, r1) =>
              match parse_exponent r1 with
              | None => None
              | Some (e, r2) => Some (0, f || e, r2)
              end
          end
      else if is_digit c then
        let '(n, r0) := parse_digits rest (digit_value c) in
        match parse_fraction r0 with
        | None => None
        | Some (f, r1) =>
            match parse_exponent r1 with
            | None => None
            | Some (e, r2) => Some (n, f || e, r2)
            end
        end
      else None
  | EmptyString => None
  end.

Definition hex_value (c : ascii) : option N :=
  let n := Ascii.nat_of_ascii c in
  if (48 <=? n)%nat && (n <=? 57)%nat then Some (N.of_nat (n - 48))
  else if (97 <=? n)%nat && (n <=? 102)%nat then Some (N.of_nat (n - 87))
  else if (65 <=? n)%nat && (n <=? 70)%nat then Some (N.of_nat (n - 55))
  else None.

Definition hex4 (a b c d : ascii) : option N :=
  match hex_value a, hex_value b, hex_value c, hex_value d with
  | Some x, Some y, Some z, Some w => Some (((x * 16 + y) * 16 + z) * 16 + w)
  | _, _, _, _ => None
  end.

Definition byte (n : N) : ascii := Ascii.ascii_of_N n.

(** The UTF-8 bytes of a code point. *)
Definition utf8_encode (cp : N) : string :=
  if cp <? 128 then String (byte cp) EmptyString
  else if cp <? 2048 then
    String (byte (192 + cp / 64)) (String (byte (128 + cp mod 64)) EmptyString)
  else if cp <? 65536 then
    String (byte (224 + cp / 4096))
      (String (byte (128 + (cp / 64) mod 64)) (String (byte (128 + cp mod 64)) EmptyString))
  else
    String (byte (240 + cp / 262144))
      (String (byte (128 + (cp / 4096) mod 64))
         (String (byte (128 + (cp / 64) mod 64)) (String (byte (128 + cp mod 64)) EmptyString))).

(** The byte of a short escape: a backslash followed by quote, backslash,
    slash, or one of the letters b, f, n, r, t. *)
Definition short_escape (e : ascii) : option ascii :=
  let n := Ascii.nat_of_ascii e in
  if (n =? 34)%nat then Some quote
  else if (n =? 92)%nat then Some backslash
  else if (n =? 47)%nat then Some (ch 47)
  else if (n =? 98)%nat then Some (ch 8)
  else if (n =? 102)%nat then Some (ch 12)
  else if (n =? 110)%nat then Some (ch 10)
  else if (n =? 114)%nat then Some (ch 13)
  else if (n =? 116)%nat then Some (ch 9)
  else None.

Definition prepend (bytes : string) (r : option (string * string)) : option (string * string) :=
  match r with
  | Some (t, rest) => Some (bytes +:+ t, rest)
  | None => None
  end.

(** The contents of a string literal, after its opening quote: the
    decoded bytes and the text after the closing quote. Raw control
    characters are refused; a [\u] escape of a leading surrogate must be
    followed by one of a trailing surrogate. *)
Fixpoint parse_string_body (s : string) : option (string * string) :=
  match s with
  | EmptyString => None
  | String c r =>
      let n := Ascii.nat_of_ascii c in
      if (n =? 34)%nat then Some (EmptyString, r)
      else if (n =? 92)%nat then
        match r with
        | EmptyString => None
        | String e r1 =>
            match short_escape e with
            | Some b => prepend (String b EmptyString) (parse_string_body r1)
            | None =>
                if Ascii.eqb e (ch 117) then
                  match r1 with
                  | String h1 (String h2 (String h3 (String h4 r2))) =>
                      match hex4 h1 h2 h3 h4 with
                      | None => None
                      | Some cp =>
                          if (55296 <=? cp) && (cp <? 56320) then
                            match r2 with
                            | String b1 (String u1 (String l1 (String l2 (String l3 (String l4 r3))))) =>
                                if Ascii.eqb b1 backslash && Ascii.eqb u1 (ch 117) then
                                  match hex4 l1 l2 l3 l4 with
                                  | Some lo =>
                                      if (56320 <=? lo) && (lo <? 57344) then
                                        prepend (utf8_encode (65536 + (cp - 55296) * 1024 + (lo - 56320)))
                                          (parse_string_body r3)
                                      else None
                                  | None => None
                                  end
                                else None
                            | _ => None
                            end
                          else if (56320 <=? cp) && (cp <? 57344) then None
                          else prepend (utf8_encode cp) (parse_string_body r2)
                      end
                  | _ => None
                  end
                else None
            end
        end
      else if (n <? 32)%nat then None
      else prepend (String c EmptyString) (parse_string_body r)
  end.

Fixpoint expect_literal (lit s : string) : option string :=
  match lit, s with
  | EmptyString, _ => Some s
  | String a lit', String b s' => if Ascii.eqb a b then expect_literal lit' s' else None
  | String _ _, EmptyString => None
  end.

Definition starts_with (c : ascii) (s : string) : bool :=
  match s with
  | String c' _ => Ascii.eqb c c'
  | EmptyString => false
  end.

Definition tail (s : string) : string :=
  match s with
  | String _ r => r
  | EmptyString => EmptyString
  end.

Fixpoint parse_value (fuel : nat) (s : string) {struct fuel} : option (json * string) :=
  match fuel with
  | O => None
  | S fuel =>
      match skip_ws s with
      | EmptyString => None
      | String c r =>
          if Ascii.eqb c (ch 110) then
            match expect_literal "ull" r with Some r' => Some (JNull, r') | None => None end
          else if Ascii.eqb c (ch 116) then
            match expect_literal "rue" r with Some r' => Some (JBool true, r') | None => None end
          else if Ascii.eqb c (ch 102) then
            match expect_literal "alse" r with Some r' => Some (JBool false, r') | None => None end
          else if Ascii.eqb c quote then
            match parse_string_body r with
            | Some (str, r') => Some (JString str, r')
            | None => None
            end
          else if Ascii.eqb c (ch 91) then
            let r := skip_ws r in
            if starts_with (ch 93) r then Some (JArray [], tail r)
            else match parse_items fuel r with
                 | Some (items, r') => Some (JArray items, r')
                 | None => None
                 end
          else if Ascii.eqb c (ch 123) then
            let r := skip_ws r in
            if starts_with (ch 125) r then Some (JObject [], tail r)
            else match parse_members fuel r with
                 | Some (members, r') => Some (JObject members, r')
                 | None => None
                 end
          else if Ascii.eqb c (ch 45) then
            match parse_unsigned r with
            | Some (_, _, r') => Some (JOtherNumber, r')
            | None => None
            end
          else
            match parse_unsigned (String c r) with
            | Some (n, false, r') => Some (JUInt n, r')
            | Some (_, true, r') => Some (JOtherNumber, r')
            | None => None
            end
      end
  end
with parse_items (fuel : nat) (s : string) {struct fuel} : option (list json * string) :=
  match fuel with
  | O => None
  | S fuel =>
      match parse_value fuel s with
      | None => None
      | Some (v, r) =>
          match skip_ws r with
          | String c r' =>
              if Ascii.eqb c (ch 44) then
                match parse_items fuel r' with
                | Some (vs, r'') => Some (v :: vs, r'')
                | None => None
                end
              else if Ascii.eqb c (ch 93) then Some ([v], r')
              else None
          | EmptyString => None
          end
      end
  end
with parse_members (fuel : nat) (s : string) {struct fuel}
    : option (list (string * json) * string) :=
  match fuel with
  | O => None
  | S fuel =>
      match skip_ws s with
      | String c r =>
          if Ascii.eqb c quote then
            match parse_string_body r with
            | None => None
            | Some (k, r1) =>
                match skip_ws r1 with
                | String c1 r2 =>
                    if Ascii.eqb c1 (ch 58) then
                      match parse_value fuel r2 with
                      | None => None
                      | Some (v, r3) =>
                          match skip_ws r3 with
                          | String c3 r4 =>
                              if Ascii.eqb c3 (ch 44) then
                                match parse_members fuel r4 with
                                | Some (ms, r5) => Some ((k, v) :: ms, r5)
                                | None => None
                                end
                              else if Ascii.eqb c3 (ch 125) then Some ([(k, v)], r4)
                              else None
                          | EmptyString => None
                          end
                      end
                    else None
                | EmptyString => None
                end
            end
          else None
      | EmptyString => None
      end
  end.

(** A whole document: one value, then only whitespace. *)
Definition parse_document (s : string) : option json :=
  match parse_value (S (String.length s)) s with
  | Some (v, rest) =>
      match skip_ws rest with
      | EmptyString => Some v
      | String _ _ => None
      end
  | None => None
  end.

End Json.

(* ------------------------------------------------------------------ *)
(** ** The cache ([cache/mod.rs], [cache/cached_file.rs]) *)

Record CacheEntry := mkCacheEntry {
  file_contents_digest : string;
  processed_file : ProcessedFile
}.

Module CacheJson.
Import Json.

(** [#[derive(Serialize)]]: fields in declaration order. *)
Definition range_to_json (r : Range) : json :=
  JObject [("start_row", JUInt (start_row r)); ("start_col", JUInt (start_col r));
           ("end_row", JUInt (end_row r)); ("end_col", JUInt (end_col r))].

Definition unresolved_reference_to_json (u : UnresolvedReference) : json :=
  JObject [("name", JString (ur_name u));
           ("namespace_path", JArray (map JString (ur_namespace_path u)));
           ("location", range_to_json (ur_location u))].

Definition processed_file_to_json (pf : ProcessedFile) : json :=
  JObject [("absolute_path", JString (absolute_path pf));
           ("unresolved_references",
             JArray (map unresolved_reference_to_json (unresolved_references pf)))].

Definition cache_entry_to_json (e : CacheEntry) : json :=
  JObject [("file_contents_digest", JString (file_contents_digest e));
           ("processed_file", processed_file_to_json (processed_file e))].

(** [serde_json::to_string(&cache_entry)]. *)
Definition to_string (e : CacheEntry) : string := to_text (cache_entry_to_json e).

(** [#[derive(Deserialize)]] for a struct read from a JSON object: each
    field present exactly once (a second occurrence is a duplicate-field
    error, none is a missing-field error); unknown fields are skipped. *)
Definition unique_field (k : string) (members : list (string * json)) : option json :=
  match List.filter (fun kv => Str.eqb (fst kv) k) members with
  | [(_, v)] => Some v
  | _ => None
  end.

Definition usize_of_json (v : json) : option N :=
  match v with
  | JUInt n => if n <? 2 ^ 64 then Some n else None
  | _ => None
  end.

Definition string_of_json (v : json) : option string :=
  match v with
  | JString s => Some s
  | _ => None
  end.

Definition list_of_json {A} (f : json -> option A) (v : json) : option (list A) :=
  match v with
  | JArray items => mapM f items
  | _ => None
  end.

(** A struct is also read from a JSON array holding its fields in
    order. *)
Definition range_of_json (v : json) : option Range :=
  match v with
  | JObject ms =>
      a ← unique_field "start_row" ms ≫= usize_of_json;
      b ← unique_field "start_col" ms ≫= usize_of_json;
      c ← unique_field "end_row" ms ≫= usize_of_json;
      d ← unique_field "end_col" ms ≫= usize_of_json;
      Some (mkRange a b c d)
  | JArray [va; vb; vc; vd] =>
      a ← usize_of_json va; b ← usize_of_json vb;
      c ← usize_of_json vc; d ← usize_of_json vd;
      Some (mkRange a b c d)
  | _ => None
  end.

Definition unresolved_reference_of_json (v : json) : option UnresolvedReference :=
  match v with
  | JObject ms =>
      n ← unique_field "name" ms ≫= string_of_json;
      ns ← unique_field "namespace_path" ms ≫= list_of_json string_of_json;
      l ← unique_field "location" ms ≫= range_of_json;
      Some (mkUnresolvedReference n ns l)
  | JArray [vn; vns; vl] =>
      n ← string_of_json vn; ns ← list_of_json string_of_json vns;
      l ← range_of_json vl;
      Some (mkUnresolvedReference n ns l)
  | _ => None
  end.

Definition processed_file_of_json (v : json) : option ProcessedFile :=
  match v with
  | JObject ms =>
      p ← unique_field "absolute_path" ms ≫= string_of_json;
      us ← unique_field "unresolved_references" ms
             ≫= list_of_json unresolved_reference_of_json;
      Some (mkProcessedFile p us)
  | JArray [vp; vus] =>
      p ← string_of_json vp; us ← list_of_json unresolved_reference_of_json vus;
      Some (mkProcessedFile p us)
  | _ => None
  end.

Definition cache_entry_of_json (v : json) : option CacheEntry :=
  match v with
  | JObject ms =>
      d ← unique_field "file_contents_digest" ms ≫= string_of_json;
      pf ← unique_field "processed_file" ms ≫= processed_file_of_json;
      Some (mkCacheEntry d pf)
  | JArray [vd; vpf] =>
      d ← string_of_json vd; pf ← processed_file_of_json vpf;
      Some (mkCacheEntry d pf)
  | _ => None
  end.

(** [serde_json::from_slice::<CacheEntry>]: [None] is the
    deserialization error. *)
Definition from_slice (bytes : string) : option CacheEntry :=
  parse_document bytes ≫= cache_entry_of_json.

End CacheJson.

Record EmptyCacheEntry := mkEmptyCacheEntry {
  filepath : string;
  empty_file_contents_digest : string;
  file_name_digest : string;
  cache_file_path : string
}.

Inductive CacheResult :=
| Processed (pf : ProcessedFile)
| Miss (empty_cache_entry : EmptyCacheEntry).

(** The file system: the bytes of each existing file. *)
Abbreviation FileSystem := (gmap string string).

(** [md5::compute] followed by [format!("{:x}", ..)] is an external
    digest; the cache is stated for any such function. *)
Section Cache.

Variable md5_hex : string -> string.

Definition cache_file_path_from_digest (cache_directory file_name_digest : string) : string :=
  PathModel.join
    (PathModel.join cache_directory (String.substring 0 2 file_name_digest))
    (String.substring 2 (String.length file_name_digest - 2) file_name_digest).

(** [file_content_digest]: fails when the file cannot be read. *)
Definition file_content_digest (fs : FileSystem) (file : string) : result string :=
  match fs !! file with
  | Some contents => Ok (md5_hex contents)
  | None => Err "Failed to open file"
  end.

Definition empty_cache_entry_new (fs : FileSystem) (cache_directory filepath : string)
    : result EmptyCacheEntry :=
  let file_name_digest := md5_hex filepath in
  let cache_file_path := cache_file_path_from_digest cache_directory file_name_digest in
  match file_content_digest fs filepath with
  | Err e => Err e
  | Ok file_contents_digest =>
      Ok (mkEmptyCacheEntry filepath file_contents_digest file_name_digest cache_file_path)
  end.

(** [CacheEntry::from_empty]: a missing file or a read or
    deserialization failure gives [None] (the failure is logged). *)
Definition cache_entry_from_empty (fs : FileSystem) (empty : EmptyCacheEntry)
    : option CacheEntry :=
  match fs !! cache_file_path empty with
  | Some bytes => CacheJson.from_slice bytes
  | None => None
  end.

(** [CachedFile::get]. *)
Definition cache_get (cache_dir : string) (fs : FileSystem) (path : string)
    : result CacheResult :=
  match empty_cache_entry_new fs cache_dir path with
  | Err e => Err e
  | Ok empty_cache_entry =>
      match cache_entry_from_empty fs empty_cache_entry with
      | Some cache_entry =>
          if Str.eqb (file_contents_digest cache_entry)
               (empty_file_contents_digest empty_cache_entry)
          then Ok (Processed (processed_file cache_entry))
          else Ok (Miss empty_cache_entry)
      | None => Ok (Miss empty_cache_entry)
      end
  end.

(** [CachedFile::write]: the file at [cache_file_path] is created (its
    parent directories too) or truncated, and receives the JSON text. *)
Definition cache_write (fs : FileSystem) (empty_cache_entry : EmptyCacheEntry)
    (pf : ProcessedFile) : FileSystem :=
  let cache_entry := mkCacheEntry (empty_file_contents_digest empty_cache_entry) pf in
  <[cache_file_path empty_cache_entry := CacheJson.to_string cache_entry]> fs.

End Cache.

(** [from_cache_or_process] ([parser/mod.rs]) with the [CachedFile] cache:
    a hit returns the stored file; a miss processes the file and writes the
    entry (the write is taken to succeed). [process_file] is the processor,
    whose file is not among these sources; it is a parameter. *)
Section CachedProcessing.

Variable md5_hex : string -> string.
Variable cache_dir : string.
Variable process_file : FileSystem -> string -> result ProcessedFile.

Definition from_cache_or_process (fs : FileSystem) (path : string)
    : result (ProcessedFile * FileSystem) :=
  match cache_get md5_hex cache_dir fs path with
  | Ok (Processed processed_file) => Ok (processed_file, fs)
  | Ok (Miss empty_cache_entry) =>
      match process_file fs path with
      | Err e => Err e
      | Ok processed_file =>
          Ok (processed_file, cache_write fs empty_cache_entry processed_file)
      end
  | Err e => Err e
  end.

End CachedProcessing.

(* ------------------------------------------------------------------ *)
(** ** Ordering of references ([impl Ord for Reference]) *)

(** [Option<&String>::cmp]: [None] comes first. [String::cmp] is the
    byte-wise lexicographic order, [String.compare]. *)
Definition option_string_cmp (a b : option string) : comparison :=
  match a, b with
  | None, None => Eq
  | None, Some _ => Lt
  | Some _, None => Gt
  | Some x, Some y => String.compare x y
  end.

(** [Ordering::then_with]. *)
Definition then_with (o : comparison) (f : unit -> comparison) : comparison :=
  match o with
  | Eq => f tt
  | _ => o
  end.

(** [Reference::cmp]: the extra fields are compared by their number only
    ([HashMap::len]). *)
Definition reference_cmp (a b : Reference) : comparison :=
  then_with (String.compare (constant_name a) (constant_name b)) (fun _ =>
  then_with (option_string_cmp (relative_defining_file a) (relative_defining_file b)) (fun _ =>
  then_with (String.compare (relative_referencing_file a) (relative_referencing_file b)) (fun _ =>
  then_with (N.compare (line (source_location a)) (line (source_location b))) (fun _ =>
  then_with (N.compare (column (source_location a)) (column (source_location b))) (fun _ =>
  Nat.compare (size (extra_fields a)) (size (extra_fields b))))))).

(* ------------------------------------------------------------------ *)
(** ** All references ([all_references], [reference.rs] and [references/mod.rs]) *)

(** The [try_fold] body for one processed file: [acc.extend] with the
    references of each unresolved reference in turn, [?] stopping at the
    first error. *)
Fixpoint extend_with_references (cfg : BuilderConfiguration)
    (resolve : string -> list string -> option (list ConstantDefinition))
    (referencing_file_path : string) (us : list UnresolvedReference)
    (acc : list Reference) : result (list Reference) :=
  match us with
  | [] => Ok acc
  | unresolved_ref :: rest =>
      match from_unresolved_reference cfg resolve unresolved_ref referencing_file_path with
      | Err e => Err e
      | Ok new_references =>
          extend_with_references cfg resolve referencing_file_path rest (acc ++ new_references)
      end
  end.

(** [all_references] after [parse] returned the processed files: rayon's
    [try_fold] and [try_reduce] over the indexed files append the chunks
    in file order, so the references are those of the sequential fold;
    on failure the error returned is the one of some failing reference. *)
Definition all_references_from (cfg : BuilderConfiguration)
    (resolve : string -> list string -> option (list ConstantDefinition))
    (files : list ProcessedFile) : result (list Reference) :=
  fold_left (fun acc processed_file =>
      match acc with
      | Err e => Err e
      | Ok acc =>
          extend_with_references cfg resolve (absolute_path processed_file)
            (unresolved_references processed_file) acc
      end) files (Ok []).

(* ------------------------------------------------------------------ *)
(** ** File types ([references/parser/processor.rs], [preprocess/file_utils.rs]) *)

(** [Path::file_name]: the last component, unless it is the root or [..]. *)
Definition path_file_name (p : string) : option string :=
  match last (PathModel.components p) with
  | Some c => if Str.eqb c "/" || Str.eqb c ".." then None else Some c
  | None => None
  end.

(** [Path::extension] ([rsplit_file_at_dot]): what follows the last ['.']
    of the file name, when something precedes that ['.']. *)
Definition path_extension (p : string) : option string :=
  match path_file_name p with
  | None => None
  | Some name =>
      if Str.eqb name ".." then None
      else match last_dot name with
           | None | Some O => None
           | Some (S _ as i) => Some (String.substring (S i) (String.length name - S i) name)
           end
  end.

(** [Path::ends_with]: the components of [child] are the last components
    of [p]. *)
Definition path_ends_with (p child : string) : bool :=
  match PathModel.strip_components (reverse (PathModel.components child))
          (reverse (PathModel.components p)) with
  | Some _ => true
  | None => false
  end.

Inductive SupportedFileType := Ruby | Erb.

(** [extension.map_or(false, |e| e == ext)] *)
Definition extension_is (extension : option string) (ext : string) : bool :=
  match extension with
  | Some e => Str.eqb e ext
  | None => false
  end.

(** The defaults of [Configuration::default()]. *)
Definition default_ruby_special_files : list string := ["Gemfile"; "Rakefile"].
Definition default_ruby_extensions : list string := ["rb"; "rake"; "builder"; "gemspec"; "ru"].

Module Processor.

(** [processor::get_file_type]: the [erb] extension is tested first. *)
Definition get_file_type (ruby_extensions ruby_special_files : list string) (path : string)
    : option SupportedFileType :=
  let extension := path_extension path in
  if extension_is extension "erb" then Some Erb
  else if existsb (extension_is extension) ruby_extensions
          || existsb (path_ends_with path) ruby_special_files
  then Some Ruby
  else None.

End Processor.

Module FileUtils.

(** [file_utils::get_file_type]: the Ruby test comes first, with the lists
    written in the function. *)
Definition get_file_type (path : string) : option SupportedFileType :=
  let ruby_special_files := ["Gemfile"; "Rakefile"] in
  let ruby_extensions := ["rb"; "rake"; "builder"; "gemspec"; "ru"] in
  let extension := path_extension path in
  let is_ruby_file :=
    existsb (extension_is extension) ruby_extensions
    || existsb (path_ends_with path) ruby_special_files in
  let is_erb_file := extension_is (path_extension path) "erb" in
  if is_ruby_file then Some Ruby
  else if is_erb_file then Some Erb
  else None.

End FileUtils.

(* ------------------------------------------------------------------ *)
(** ** Auxiliary definitions used by the statements *)

(** The locations of the definitions the candidates match, in candidate
    order. *)
Fixpoint matching_locations (m : gmap string Range) (candidates : list string) : list Range :=
  match candidates with
  | [] => []
  | c :: cs =>
      match lookup_candidate m c with
      | Some l => l :: matching_locations m cs
      | None => matching_locations m cs
      end
  end.

(** The keep/drop decision as the last matching candidate makes it. *)
Definition decided_by_last_match (m : gmap string Range)
    (candidates : list string) (r : UnresolvedReference) : bool :=
  match last (matching_locations m candidates) with
  | Some location => reference_is_definition location (ur_location r)
  | None => true
  end.

(** The (autoload root, file) pairs the nested loops of
    [inferred_constants] visit, in order. *)
Definition root_file_pairs (l : list (string * list string)) : list (string * string) :=
  concat (map (fun '(r, fs) => map (fun f => (r, f)) fs) l).

(** After visiting [pairs], every file seen is mapped to a root it was seen
    with, and that root has the most components among the roots it was
    seen with. *)
Definition longest_root_invariant (pairs : list (string * string))
    (m : gmap string string) : Prop :=
  (forall f r, m !! f = Some r ->
     In (r, f) pairs /\
     (forall r', In (r', f) pairs -> (component_count r' <= component_count r)%nat)) /\
  (forall r f, In (r, f) pairs -> is_Some (m !! f)).

(** A bound on the fuel [parse_value] needs for a value: one unit per
    value and one per array item or object member. *)
Fixpoint jsize (v : Json.json) : nat :=
  match v with
  | Json.JArray items => S (fold_right (fun i acc => S (jsize i + acc)) O items)
  | Json.JObject members => S (fold_right (fun kv acc => S (jsize (snd kv) + acc)) O members)
  | _ => 1
  end.

(** What may follow a value in the text [to_text] writes: nothing, or a
    comma, a closing bracket or a closing brace. *)
Definition delimited (rest : string) : Prop :=
  match rest with
  | EmptyString => True
  | String c _ => c = Json.ch 44 \/ c = Json.ch 93 \/ c = Json.ch 125
  end.

(** The fields of a [Range] are [usize]s. *)
Definition usize_range (r : Range) : Prop :=
  start_row r < 2 ^ 64 /\ start_col r < 2 ^ 64 /\ end_row r < 2 ^ 64 /\ end_col r < 2 ^ 64.

(** A comparison function that is a total order on its keys: [Eq] exactly
    on equal keys, antisymmetric, and transitive on [Lt]. *)
Record cmp_spec {K} (cmp : K -> K -> comparison) : Prop := {
  cmp_eq : forall x y, cmp x y = Eq <-> x = y;
  cmp_antisym : forall x y, cmp y x = CompOpp (cmp x y);
  cmp_lt_trans : forall x y z, cmp x y = Lt -> cmp y z = Lt -> cmp x z = Lt
}.

(** The lexicographic comparison of pairs, as [then_with] chains it. *)
Definition prod_cmp {A B} (ca : A -> A -> comparison) (cb : B -> B -> comparison)
    (x y : A * B) : comparison :=
  then_with (ca (fst x) (fst y)) (fun _ => cb (snd x) (snd y)).

(** The fields [Reference::cmp] compares, in its order. *)
Definition reference_key (r : Reference)
    : string * (option string * (string * (N * (N * nat)))) :=
  (constant_name r, (relative_defining_file r, (relative_referencing_file r,
    (line (source_location r), (column (source_location r), size (extra_fields r)))))).

(** The keys [definition_to_location_map] inserts for a definition: the
    ["::"]-joined prefixes of the parts of its name. *)
Definition prefix_keys (name : string) : list string :=
  let parts := Str.split_colons name in
  map (fun index => Str.join "::" (take (S index) parts)) (seq 0 (length parts)).

(** A name written from the root: it starts with ["::"]. *)
Definition rooted (name : string) : Prop := exists rest, name = "::" +:+ rest.

(** [md5] hexadecimal digests: at least two characters, none of them a
    ['/']. *)
Definition digest_ok (d : string) : bool :=
  (2 <=? String.length d)%nat
  && forallb (fun c => negb (Ascii.eqb c PathModel.slash)) (String.list_ascii_of_string d).

(** What a visit does to the collector's lists: it only appends, and every
    definition it appends has a name written from the root. *)
Definition collector_grows (c c' : ReferenceCollector) : Prop :=
  (exists rs, references c' = references c ++ rs) /\
  (exists ds, definitions c' = definitions c ++ ds /\
     Forall (fun d => rooted (pd_fully_qualified_name d)) ds).

(** ... and it leaves the namespace stack as it found it. *)
Definition collector_extends (c c' : ReferenceCollector) : Prop :=
  current_namespaces c' = current_namespaces c /\ collector_grows c c'.

(** A property of an optional child node. *)
Definition opt_P (P : Node -> Prop) (o : option Node) : Prop :=
  match o with
  | Some n => P n
  | None => True
  end.

(** The (referencing file, unresolved reference) pairs of the processed
    files, in file order and then reference order. *)
Definition file_reference_pairs (files : list ProcessedFile)
    : list (string * UnresolvedReference) :=
  flat_map (fun pf => map (fun u => (absolute_path pf, u)) (unresolved_references pf)) files.

(* ================================================================== *)
(** * Theorems *)

(** ** Self-reference filter *)

Lemma fold_ignore_step m r candidates acc :
  fold_left (ignore_step m r) candidates acc =
  match last (matching_locations m candidates) with
  | Some location => negb (reference_is_definition location (ur_location r))
  | None => acc
  end.
Proof.
  revert acc. induction candidates as [|c cs IH]; intros acc; [reflexivity|].
  simpl. rewrite IH. unfold ignore_step.
  destruct (lookup_candidate m c) as [l|] eqn:E; [|reflexivity].
  rewrite last_cons. destruct (last (matching_locations m cs)); reflexivity.
Qed.

(** C10: two locations are the same when their start row and start column
    agree (the end is not compared), and of the candidates that match a
    definition, the last one in candidate order alone decides whether the
    reference is kept: kept when it starts where the reference starts (or
    when nothing matches), dropped otherwise. *)
Theorem keep_reference_decided_by_last_match :
  forall possible_fully_qualified_constants m r,
    keep_reference possible_fully_qualified_constants m r =
    match last (matching_locations m
                  (possible_fully_qualified_constants (ur_namespace_path r) (ur_name r))) with
    | Some location =>
        (start_row location =? start_row (ur_location r))
        && (start_col location =? start_col (ur_location r))
    | None => true
    end.
Proof.
  intros pfqc m r. unfold keep_reference. rewrite fold_ignore_step.
  destruct (last _); [apply negb_involutive|reflexivity].
Qed.

Lemma last_In {A} (l : list A) x : last l = Some x -> In x l.
Proof.
  induction l as [|y l IH]; [discriminate|].
  rewrite last_cons. destruct (last l) eqn:E.
  - intros [= <-]. right. apply IH. reflexivity.
  - intros [= <-]. left. reflexivity.
Qed.

Lemma matching_locations_In m candidates l :
  In l (matching_locations m candidates) -> exists c, lookup_candidate m c = Some l.
Proof.
  induction candidates as [|c cs IH]; simpl; [tauto|].
  destruct (lookup_candidate m c) eqn:E; [|exact IH].
  intros [<-|H]; [eauto|auto].
Qed.

Lemma keep_reference_last_match possible_fully_qualified_constants m r :
  keep_reference possible_fully_qualified_constants m r =
  decided_by_last_match m
    (possible_fully_qualified_constants (ur_namespace_path r) (ur_name r)) r.
Proof.
  unfold keep_reference, decided_by_last_match. rewrite fold_ignore_step.
  destruct (last _); [apply negb_involutive|reflexivity].
Qed.

(** Every value in the location map of a list of definitions that all start
    at [loc] is [loc]. *)
Definition all_values (m : gmap string Range) (loc : Range) : Prop :=
  map_Forall (fun _ v => v = loc) m.

Lemma insert_prefix_all_values parts loc m index :
  all_values m loc -> all_values (insert_prefix parts loc m index) loc.
Proof.
  unfold insert_prefix. intros H.
  destruct (m !! _); [exact H|]. apply map_Forall_insert_2; [reflexivity|exact H].
Qed.

Lemma insert_definition_all_values m d :
  all_values m (pd_location d) -> all_values (insert_definition m d) (pd_location d).
Proof.
  unfold insert_definition. generalize (seq 0 (length (Str.split_colons (pd_fully_qualified_name d)))).
  intros l. revert m. induction l as [|i l IH]; intros m H; simpl; [exact H|].
  apply IH, insert_prefix_all_values, H.
Qed.

Lemma lookup_candidate_all_values m loc c l :
  all_values m loc -> lookup_candidate m c = Some l -> l = loc.
Proof.
  unfold lookup_candidate, all_values. intros H.
  destruct (m !! c) eqn:E.
  - intros [= <-]. exact (H _ _ E).
  - intros E'. exact (H _ _ E').
Qed.

Lemma filter_single_definition possible_fully_qualified_constants r d :
  start_row (pd_location d) = start_row (ur_location r) ->
  start_col (pd_location d) = start_col (ur_location r) ->
  filter possible_fully_qualified_constants [r] [d] = [r].
Proof.
  intros Hrow Hcol. unfold filter. simpl.
  assert (Hm : all_values (definition_to_location_map [d]) (pd_location d)).
  { apply insert_definition_all_values, map_Forall_empty. }
  rewrite keep_reference_last_match. unfold decided_by_last_match.
  destruct (last _) as [l|] eqn:E; [|reflexivity].
  apply last_In, matching_locations_In in E as [c Ec].
  apply (lookup_candidate_all_values _ _ _ _ Hm) in Ec. subst l.
  unfold reference_is_definition. rewrite Hrow, Hcol, !N.eqb_refl. reflexivity.
Qed.




(** ** Collector *)

(** C2 (code bug): [on_class] pops the superclass stack exactly once,
    whatever the class pushed. A class with no superclass pushes nothing
    and still pops, so inside [class A < B] the stack [B] becomes empty
    after [class C; end]; and [class A < Struct.new(X, Y); end] pushes
    three entries and pops one, leaving two behind. *)
Theorem class_pops_superclass_stack_once :
  (forall env name l c,
      exists c', visit env (Class (Const None name l) None None) c = Done c' /\
                 superclasses c' = vec_pop (superclasses c)) /\
  (exists c',
      visit (mkCollectorEnv "class A < Struct.new(X, Y); end" [])
        (Class (Const None "A" (mkLoc 6 7))
           (Some (Send (Some (Const None "Struct" (mkLoc 10 16))) "new"
                    [Const None "X" (mkLoc 21 22); Const None "Y" (mkLoc 24 25)]
                    (mkLoc 10 26)))
           None)
        new_collector = Done c' /\
      superclasses c' = [mkSuperclassReference "Struct" []; mkSuperclassReference "X" []]).
Proof.
  split.
  - intros env name l c. eexists. split; reflexivity.
  - eexists. split; [vm_compute; reflexivity|reflexivity].
Qed.

(** C3 (code bug): a module whose name cannot be resolved ([module
    self::Bar]) makes [on_module] panic through [.expect], and with it the
    processing of the whole file; only a class with such a name is
    skipped. *)
Theorem metaprogrammed_module_name_panics :
  forall possible_fully_qualified_constants env include_reference_is_definition
         absolute_path name l superclass body c,
    visit env (Module (Const (Some Self_) name l) body) c = Panic /\
    process_from_ast possible_fully_qualified_constants env include_reference_is_definition
      absolute_path (Some (Module (Const (Some Self_) name l) body)) = Panic /\
    visit env (Class (Const (Some Self_) name l) superclass body) c = Done c.
Proof. intros. repeat split. Qed.

(** C4 (code bug): the collector has no acronym set. For an association
    call with no [class_name:] keyword whose first argument is a symbol,
    the name is [to_class_case] of the symbol with an empty acronym set,
    so [belongs_to :api] with the acronym [API] configured yields [Api],
    not [API]. *)
Theorem association_name_ignores_acronyms :
  (forall method_name sym rest expression_l current_namespaces line_col_lookup
          custom_associations,
      existsb (Str.eqb method_name) (custom_associations ++ ASSOCIATION_METHOD_NAMES) = true ->
      class_name_from_args (Sym sym :: rest) = None ->
      get_reference_from_active_record_association method_name (Sym sym :: rest)
        expression_l current_namespaces line_col_lookup custom_associations =
      Some (mkUnresolvedReference (to_class_case sym true []) current_namespaces
              (loc_to_range expression_l line_col_lookup))) /\
  to_class_case "api" true ["API"] = "API" /\
  get_reference_from_active_record_association "belongs_to" [Sym "api"] (mkLoc 0 15)
    [] "belongs_to :api" [] =
  Some (mkUnresolvedReference "Api" [] (mkRange 1 0 1 16)).
Proof.
  split; [|split; vm_compute; reflexivity].
  intros m sym rest l ns lookup custom Hm Hk.
  unfold get_reference_from_active_record_association. rewrite Hm, Hk. reflexivity.
Qed.

(** Witness for C4: [has_many :users]. *)
Lemma association_name_ignores_acronyms_witness :
  get_reference_from_active_record_association "has_many" [Sym "users"] (mkLoc 0 15)
    [] "has_many :users" [] =
  Some (mkUnresolvedReference (to_class_case "users" true []) []
          (loc_to_range (mkLoc 0 15) "has_many :users")).
Proof.
  apply (proj1 association_name_ignores_acronyms); vm_compute; reflexivity.
Defined.

(** C9 (code bug): [loc_to_range] subtracts one from the start column only.
    The end column is the 1-based column of the end offset, one more than
    the 0-based exclusive end: for the constant [Foo] at bytes 0..3 of
    [Foo] the range is (1,0)-(1,4), not (1,0)-(1,3). *)
Theorem range_end_column_is_one_based :
  (forall loc contents,
      start_col (loc_to_range loc contents) = snd (line_col_get contents (loc_begin loc)) - 1 /\
      end_col (loc_to_range loc contents) = snd (line_col_get contents (loc_end loc))) /\
  line_col_get "Foo" 3 = (1, 4) /\
  process_from_ast possible_fully_qualified_constants_spec (mkCollectorEnv "Foo" []) false
    "foo.rb" (Some (Const None "Foo" (mkLoc 0 3))) =
  Done (mkProcessedFile "foo.rb" [mkUnresolvedReference "Foo" [] (mkRange 1 0 1 4)]).
Proof.
  split; [|split; vm_compute; reflexivity].
  intros loc contents. unfold loc_to_range.
  destruct (line_col_get contents (loc_begin loc)), (line_col_get contents (loc_end loc)).
  split; reflexivity.
Qed.

(** ** Reference builder *)

Lemma references_from_constant_definitions_spec cfg referencing_file_path
    relative_file source_location defs :
  Forall (fun d => PathModel.strip_prefix (cd_absolute_path_of_definition d)
                     (absolute_root cfg) <> None) defs ->
  exists refs,
    references_from_constant_definitions cfg referencing_file_path
      relative_file source_location defs = Ok refs /\
    Forall2 (fun d r =>
        constant_name r = cd_fully_qualified_name d /\
        relative_defining_file r =
          PathModel.strip_prefix (cd_absolute_path_of_definition d) (absolute_root cfg) /\
        relative_referencing_file r = relative_file /\
        extra_fields r =
          extra_fields_of cfg referencing_file_path (Some (cd_absolute_path_of_definition d)))
      defs refs.
Proof.
  induction defs as [|d defs IH]; intros Hs; [exists []; split; constructor|].
  inversion Hs as [|? ? Hd Hrest]; subst.
  destruct IH as [refs [E F]]; [exact Hrest|].
  simpl. destruct (PathModel.strip_prefix _ _) as [rel|] eqn:Es; [|contradiction].
  rewrite E. eexists. split; [reflexivity|].
  constructor; [|exact F]. simpl. rewrite Es. repeat split.
Qed.



(** ** Cache lookup *)



(** ** Constant inference *)

Lemma update_longest_path_invariant pairs m r f :
  longest_root_invariant pairs m ->
  longest_root_invariant (pairs ++ [(r, f)]) (update_longest_path r m f).
Proof.
  intros [Hval Hdom]. unfold update_longest_path.
  destruct (m !! f) as [c|] eqn:Ef.
  - destruct (Hval f c Ef) as [Hin Hmax].
    destruct (Nat.ltb_spec (component_count c) (component_count r)) as [Hlt|Hge].
    + split.
      * intros f' r'. setoid_rewrite in_app_iff. simpl.
        destruct (decide (f' = f)) as [->|Hne].
        -- rewrite lookup_insert_eq. intros [= <-]. split; [right; left; reflexivity|].
           intros r'' [H|[[= ->]|[]]]; [specialize (Hmax r'' H); lia|lia].
        -- rewrite lookup_insert_ne, lookup_insert_ne by congruence. intros E.
           destruct (Hval f' r' E) as [H1 H2]. split; [left; exact H1|].
           intros r'' [H|[[= _ ->]|[]]]; [exact (H2 r'' H)|congruence].
      * intros r' f'. setoid_rewrite in_app_iff. simpl. intros H.
        destruct (decide (f' = f)) as [->|Hne].
        -- rewrite lookup_insert_eq. eauto.
        -- rewrite lookup_insert_ne, lookup_insert_ne by congruence.
           destruct H as [H|[[= _ ->]|[]]]; [exact (Hdom r' f' H)|congruence].
    + rewrite insert_id by exact Ef. split.
      * intros f' r' E. destruct (Hval f' r' E) as [H1 H2].
        setoid_rewrite in_app_iff. split; [left; exact H1|].
        intros r'' [H|[[= -> ->]|[]]]; [exact (H2 r'' H)|].
        rewrite Ef in E. injection E as <-. lia.
      * intros r' f' H. setoid_rewrite in_app_iff in H. destruct H as [H|[[= _ ->]|[]]];
          [exact (Hdom r' f' H)|rewrite Ef; eauto].
  - rewrite Nat.ltb_irrefl. split.
    + intros f' r'. setoid_rewrite in_app_iff. simpl.
      destruct (decide (f' = f)) as [->|Hne].
      * rewrite lookup_insert_eq. intros [= <-]. split; [right; left; reflexivity|].
        intros r'' [H|[[= ->]|[]]]; [|lia].
        destruct (Hdom r'' f H) as [x Hx]. congruence.
      * rewrite lookup_insert_ne by congruence. intros E.
        destruct (Hval f' r' E) as [H1 H2]. split; [left; exact H1|].
        intros r'' [H|[[= _ ->]|[]]]; [exact (H2 r'' H)|congruence].
    + intros r' f'. setoid_rewrite in_app_iff. simpl. intros H.
      destruct (decide (f' = f)) as [->|Hne].
      * rewrite lookup_insert_eq. eauto.
      * rewrite lookup_insert_ne by congruence.
        destruct H as [H|[[= _ ->]|[]]]; [exact (Hdom r' f' H)|congruence].
Qed.

Lemma fold_longest_path_invariant l pairs m :
  longest_root_invariant pairs m ->
  longest_root_invariant (pairs ++ root_file_pairs l)
    (fold_left (fun m '(autoload_path, files) =>
                  fold_left (update_longest_path autoload_path) files m) l m).
Proof.
  revert pairs m. induction l as [|[r fs] l IH]; intros pairs m H.
  - simpl. rewrite app_nil_r. exact H.
  - simpl. unfold root_file_pairs. simpl. rewrite app_assoc.
    apply IH. clear IH. revert pairs m H.
    induction fs as [|f fs IH]; intros pairs m H; simpl; [rewrite app_nil_r; exact H|].
    replace (pairs ++ (r, f) :: map (fun f0 => (r, f0)) fs)
      with ((pairs ++ [(r, f)]) ++ map (fun f0 => (r, f0)) fs)
      by (rewrite <- app_assoc; reflexivity).
    apply IH, update_longest_path_invariant, H.
Qed.

Lemma root_file_pairs_In cfg r f :
  In (r, f) (root_file_pairs (autoload_paths_to_their_globbed_files cfg)) <->
  exists ns, In (r, ns) (autoload_paths cfg) /\ In f (glob_rb (file_system_files cfg) r).
Proof.
  unfold root_file_pairs, autoload_paths_to_their_globbed_files.
  rewrite in_concat. split.
  - intros [l [Hl Hf]]. rewrite map_map, in_map_iff in Hl.
    destruct Hl as [[r' ns] [<- Hin]]. apply in_map_iff in Hf as [f' [[= <- <-] Hf']].
    eauto.
  - intros [ns [Hin Hf]]. eexists. split.
    + rewrite map_map. apply in_map_iff. exists (r, ns). split; [reflexivity|exact Hin].
    + apply in_map_iff. eauto.
Qed.

Lemma lookup_default_namespace_In paths r ns :
  In (r, ns) paths ->
  exists ns', lookup_default_namespace paths r = Some ns' /\ In (r, ns') paths.
Proof.
  induction paths as [|[k v] paths IH]; simpl; [tauto|].
  intros [[= -> ->]|H].
  - rewrite String.eqb_refl. eauto.
  - destruct (Str.eqb k r) eqn:E.
    + apply String.eqb_eq in E. subst. eauto.
    + destruct (IH H) as [ns' [H1 H2]]. eauto.
Qed.

Lemma glob_rb_strips files r f :
  In f (glob_rb files r) ->
  exists rel, PathModel.strip_components (PathModel.components r) (PathModel.components f)
              = Some rel.
Proof.
  unfold glob_rb. rewrite filter_In. intros [_ H].
  destruct (PathModel.strip_components _ _) as [[|]|]; [discriminate|eauto|discriminate].
Qed.

Lemma mapM_outcome_Done {A B} (g : A -> outcome B) (l : list A) :
  (forall x, In x l -> exists y, g x = Done y) ->
  exists ys, mapM g l = Done ys /\ Forall2 (fun x y => g x = Done y) l ys.
Proof.
  induction l as [|x l IH]; intros H; [exists []; split; constructor|].
  destruct (H x (or_introl eq_refl)) as [y Hy].
  destruct IH as [ys [E F]]; [intros x' Hx'; apply H; right; exact Hx'|].
  exists (y :: ys). split; [|constructor; assumption].
  simpl mapM. unfold mbind, outcome_mbind, obind in *. rewrite Hy, E. reflexivity.
Qed.

Lemma Forall2_In_r {A B} (R : A -> B -> Prop) l ys y :
  Forall2 R l ys -> In y ys -> exists x, In x l /\ R x y.
Proof.
  induction 1 as [|x y' l ys Hxy _ IH]; simpl; [tauto|].
  intros [<-|H]; [eauto|]. destruct (IH H) as [x' [H1 H2]]. eauto.
Qed.

Lemma Forall2_In_l {A B} (R : A -> B -> Prop) l ys x :
  Forall2 R l ys -> In x l -> exists y, In y ys /\ R x y.
Proof.
  induction 1 as [|x' y l ys Hxy _ IH]; simpl; [tauto|].
  intros [<-|H]; [eauto|]. destruct (IH H) as [y' [H1 H2]]. eauto.
Qed.


(** ** The cache entry's JSON text *)

Module JsonFacts.
Import Json.

Lemma app_cons_str c (a b : string) : String c a +:+ b = String c (a +:+ b).
Proof. reflexivity. Qed.

Lemma app_nil_l_str (b : string) : EmptyString +:+ b = b.
Proof. reflexivity. Qed.

Lemma app_assoc_str (a b c : string) : (a +:+ b) +:+ c = a +:+ (b +:+ c).
Proof.
  induction a as [|x a IH]; [reflexivity|]. rewrite !app_cons_str, IH. reflexivity.
Qed.

Lemma app_nil_r_str (a : string) : a +:+ EmptyString = a.
Proof. induction a as [|x a IH]; [reflexivity|]. rewrite app_cons_str, IH. reflexivity. Qed.

Lemma parse_escape_char c t :
  parse_string_body (escape_char c +:+ t) = prepend (String c EmptyString) (parse_string_body t).
Proof. destruct c as [[] [] [] [] [] [] [] []]; reflexivity. Qed.

Lemma parse_escape s rest :
  parse_string_body (escape s +:+ String quote rest) = Some (s, rest).
Proof.
  induction s as [|c s IH]; [reflexivity|].
  simpl. rewrite app_assoc_str, parse_escape_char, IH. reflexivity.
Qed.

Lemma string_text_app s rest :
  string_text s +:+ rest = String quote (escape s +:+ String quote rest).
Proof. unfold string_text. rewrite app_cons_str, app_assoc_str. reflexivity. Qed.

Lemma digit_char_cases d :
  d < 10 -> d = 0 \/ d = 1 \/ d = 2 \/ d = 3 \/ d = 4 \/ d = 5 \/ d = 6 \/ d = 7 \/ d = 8 \/ d = 9.
Proof. lia. Qed.

Lemma parse_digits_char d s x :
  d < 10 -> parse_digits (String (digit_char d) s) x = parse_digits s (x * 10 + d).
Proof.
  intros H. apply digit_char_cases in H.
  repeat destruct H as [->|H]; [..|subst]; reflexivity.
Qed.

Lemma print_digits_app fuel n acc rest :
  print_digits fuel n acc +:+ rest = print_digits fuel n (acc +:+ rest).
Proof.
  revert n acc. induction fuel as [|fuel IH]; intros n acc; simpl; [reflexivity|].
  destruct (n <? 10); [reflexivity|]. rewrite IH. reflexivity.
Qed.

Lemma parse_print_digits fuel n acc :
  n < 10 ^ N.of_nat fuel -> parse_digits (print_digits fuel n acc) 0 = parse_digits acc n.
Proof.
  revert n acc. induction fuel as [|fuel IH]; intros n acc Hn.
  - simpl in Hn. assert (n = 0) as -> by lia. reflexivity.
  - simpl. destruct (N.ltb_spec n 10) as [Hlt|Hge].
    + rewrite parse_digits_char by exact Hlt. reflexivity.
    + rewrite IH.
      * rewrite parse_digits_char by (apply N.mod_lt; lia).
        rewrite N.mul_comm, <- N.div_mod by lia. reflexivity.
      * rewrite Nat2N.inj_succ, N.pow_succ_r' in Hn.
        apply N.Div0.div_lt_upper_bound. lia.
Qed.

Lemma print_digits_head fuel n acc :
  0 < n -> n < 10 ^ N.of_nat fuel ->
  exists d s, print_digits fuel n acc = String (digit_char d) s /\ 0 < d < 10.
Proof.
  revert n acc. induction fuel as [|fuel IH]; intros n acc Hpos Hn.
  - simpl in Hn. lia.
  - simpl. destruct (N.ltb_spec n 10) as [Hlt|Hge]; [eauto|].
    apply IH.
    + apply N.div_str_pos. lia.
    + rewrite Nat2N.inj_succ, N.pow_succ_r' in Hn.
      apply N.Div0.div_lt_upper_bound. lia.
Qed.

Lemma N_text_fuel n : n < 10 ^ N.of_nat (S (N.to_nat (N.log2 n))).
Proof.
  rewrite Nat2N.inj_succ, N2Nat.id.
  destruct (N.eq_dec n 0) as [->|Hn]; [simpl; lia|].
  apply N.lt_le_trans with (2 ^ N.succ (N.log2 n)).
  - apply N.log2_spec. lia.
  - apply N.pow_le_mono_l. lia.
Qed.

Lemma digit_char_facts d :
  0 < d < 10 ->
  is_digit (digit_char d) = true /\ Ascii.eqb (digit_char d) (ch 48) = false /\
  is_ws (digit_char d) = false /\ digit_value (digit_char d) = d.
Proof.
  intros H. assert (H' : d < 10) by lia. apply digit_char_cases in H'.
  repeat destruct H' as [->|H']; [lia|..|subst]; repeat split.
Qed.

Lemma parse_value_number f c r :
  is_digit c = true ->
  parse_value (S f) (String c r) =
  match parse_unsigned (String c r) with
  | Some (n, false, r') => Some (JUInt n, r')
  | Some (_, true, r') => Some (JOtherNumber, r')
  | None => None
  end.
Proof. intros H. destruct c as [[] [] [] [] [] [] [] []]; try discriminate H; reflexivity. Qed.

Lemma parse_digits_delimited n rest : delimited rest -> parse_digits rest n = (n, rest).
Proof. destruct rest as [|c r]; [reflexivity|]. intros [->|[->| ->]]; reflexivity. Qed.

Lemma parse_unsigned_zero rest :
  delimited rest -> parse_unsigned (String (ch 48) rest) = Some (0, false, rest).
Proof. destruct rest as [|c r]; [reflexivity|]. intros [->|[->| ->]]; reflexivity. Qed.

Lemma parse_fraction_exponent_delimited rest :
  delimited rest -> parse_fraction rest = Some (false, rest) /\ parse_exponent rest = Some (false, rest).
Proof. destruct rest as [|c r]; [split; reflexivity|]. intros [->|[->| ->]]; split; reflexivity. Qed.

Lemma parse_unsigned_digits c r n rest :
  is_digit c = true -> Ascii.eqb c (ch 48) = false ->
  parse_digits r (digit_value c) = (n, rest) -> delimited rest ->
  parse_unsigned (String c r) = Some (n, false, rest).
Proof.
  intros Hd H0 Hp Hr. destruct (parse_fraction_exponent_delimited rest Hr) as [Hf He].
  unfold parse_unsigned. rewrite H0, Hd, Hp, Hf, He. reflexivity.
Qed.

Lemma parse_value_N fuel n rest :
  (1 <= fuel)%nat -> delimited rest -> parse_value fuel (N_text n +:+ rest) = Some (JUInt n, rest).
Proof.
  intros Hf Hr. destruct fuel as [|f]; [lia|].
  destruct (N.eq_dec n 0) as [->|Hn].
  - change (N_text 0 +:+ rest) with (String (ch 48) rest).
    rewrite parse_value_number by reflexivity. rewrite parse_unsigned_zero by exact Hr.
    reflexivity.
  - unfold N_text. rewrite print_digits_app, app_nil_l_str.
    pose proof (N_text_fuel n) as Hfuel.
    destruct (print_digits_head _ n rest ltac:(lia) Hfuel) as [d [s [Hs Hd]]].
    pose proof (parse_print_digits _ n rest Hfuel) as Hp. rewrite Hs in Hp |- *.
    rewrite parse_digits_char in Hp by lia.
    rewrite N.mul_0_l, N.add_0_l, (parse_digits_delimited n rest Hr) in Hp.
    destruct (digit_char_facts d Hd) as (Hdig & H0 & _ & Hv).
    rewrite parse_value_number by exact Hdig.
    rewrite (parse_unsigned_digits _ _ n rest Hdig H0) by (rewrite ?Hv; assumption).
    reflexivity.
Qed.

Lemma json_ind' (P : json -> Prop)
    (HNull : P JNull) (HBool : forall b, P (JBool b)) (HUInt : forall n, P (JUInt n))
    (HOther : P JOtherNumber) (HString : forall s, P (JString s))
    (HArray : forall items, Forall P items -> P (JArray items))
    (HObject : forall members, Forall (fun kv => P (snd kv)) members -> P (JObject members)) :
  forall v, P v.
Proof.
  fix IH 1. intros [| b | n | | s | items | members].
  - exact HNull.
  - apply HBool.
  - apply HUInt.
  - exact HOther.
  - apply HString.
  - apply HArray.
    exact ((fix go l : Forall P l :=
              match l with
              | [] => @List.Forall_nil _ _
              | x :: xs => @List.Forall_cons _ _ x xs (IH x) (go xs)
              end) items).
  - apply HObject.
    exact ((fix go l : Forall (fun kv => P (snd kv)) l :=
              match l with
              | [] => @List.Forall_nil _ _
              | x :: xs => @List.Forall_cons _ _ x xs (IH (snd x)) (go xs)
              end) members).
Qed.

Lemma to_text_head v :
  exists c s, to_text v = String c s /\ is_ws c = false /\
              Ascii.eqb c (ch 93) = false /\ Ascii.eqb c (ch 125) = false.
Proof.
  destruct v as [| [] | n | | s | items | members];
    try (eexists _, _; split; [reflexivity|]; repeat split; reflexivity).
  destruct (N.eq_dec n 0) as [->|Hn].
  - eexists _, _. split; [reflexivity|]. repeat split.
  - unfold to_text, N_text.
    destruct (print_digits_head _ n EmptyString ltac:(lia) (N_text_fuel n)) as [d [s [Hs Hd]]].
    rewrite Hs. exists (digit_char d), s. split; [reflexivity|].
    assert (H' : d < 10) by lia. apply digit_char_cases in H'.
    repeat destruct H' as [->|H']; [lia|..|subst]; repeat split.
Qed.

(** Side conditions of the parsing lemmas: fuel bounds and delimiters. *)
Ltac parse_side :=
  solve [ simpl; lia
        | cbn [delimited]; first [ left; reflexivity | right; left; reflexivity
                                 | right; right; reflexivity | assumption ] ].

Lemma skip_ws_head c s : is_ws c = false -> skip_ws (String c s) = String c s.
Proof. intros H. simpl. rewrite H. reflexivity. Qed.

Lemma join_cons_cons (a b : string) (l : list string) :
  Str.join "," (a :: b :: l) = a +:+ "," +:+ Str.join "," (b :: l).
Proof. reflexivity. Qed.

Lemma parse_items_text items : forall fuel rest,
  Forall (fun v => forall fuel rest, (jsize v <= fuel)%nat -> delimited rest ->
                   parse_value fuel (to_text v +:+ rest) = Some (v, rest)) items ->
  items <> [] ->
  (fold_right (fun i acc => S (jsize i + acc)) O items <= fuel)%nat -> delimited rest ->
  parse_items fuel (Str.join "," (map to_text items) +:+ String (ch 93) rest) = Some (items, rest).
Proof.
  induction items as [|x xs IH]; intros fuel rest Hall Hne Hf Hr; [congruence|].
  inversion Hall as [|? ? Px Pxs]; subst. simpl in Hf.
  destruct fuel as [|f]; [lia|].
  destruct xs as [|y ys].
  - change (Str.join "," (map to_text [x])) with (to_text x).
    cbn [parse_items]. rewrite Px by parse_side. reflexivity.
  - cbn [map]. rewrite join_cons_cons, !app_assoc_str.
    set (T := Str.join "," (to_text y :: map to_text ys) +:+ String (ch 93) rest).
    assert (HT : parse_items f T = Some (y :: ys, rest))
      by exact (IH f rest Pxs ltac:(discriminate) ltac:(lia) Hr).
    change ("," +:+ T) with (String (ch 44) T).
    cbn [parse_items]. rewrite Px by parse_side. simpl. rewrite HT. reflexivity.
Qed.

Lemma join_cons_app (a : string) (l : list string) rest :
  l <> [] -> Str.join "," (a :: l) +:+ rest = a +:+ String (ch 44) (Str.join "," l +:+ rest).
Proof.
  destruct l as [|b l]; [congruence|]. intros _.
  rewrite join_cons_cons, !app_assoc_str. reflexivity.
Qed.

Lemma member_text_app k v rest :
  (string_text k +:+ ":" +:+ to_text v) +:+ rest =
  String quote (escape k +:+ String quote (String (ch 58) (to_text v +:+ rest))).
Proof. rewrite app_assoc_str, string_text_app. reflexivity. Qed.

Lemma parse_members_text members : forall fuel rest,
  Forall (fun kv => forall fuel rest, (jsize (snd kv) <= fuel)%nat -> delimited rest ->
                    parse_value fuel (to_text (snd kv) +:+ rest) = Some (snd kv, rest)) members ->
  members <> [] ->
  (fold_right (fun kv acc => S (jsize (snd kv) + acc)) O members <= fuel)%nat -> delimited rest ->
  parse_members fuel
    (Str.join "," (map (fun '(k, v) => string_text k +:+ ":" +:+ to_text v) members)
     +:+ String (ch 125) rest) = Some (members, rest).
Proof.
  induction members as [|[k v] ms IH]; intros fuel rest Hall Hne Hf Hr; [congruence|].
  inversion Hall as [|? ? Pv Pms]; subst. simpl in Hf, Pv.
  destruct fuel as [|f]; [lia|].
  destruct ms as [|[k' v'] ms'].
  - change (map ?g [(k, v)]) with [g (k, v)]. change (Str.join "," [?a]) with a.
    change ((fun '(k0, v0) => string_text k0 +:+ ":" +:+ to_text v0) (k, v))
      with (string_text k +:+ ":" +:+ to_text v).
    rewrite member_text_app. simpl.
    rewrite parse_escape. simpl. rewrite Pv by parse_side. reflexivity.
  - change (map ?g ((k, v) :: ?l)) with (g (k, v) :: map g l).
    rewrite join_cons_app by discriminate.
    set (T := Str.join "," (map _ ((k', v') :: ms')) +:+ String (ch 125) rest).
    assert (HT : parse_members f T = Some ((k', v') :: ms', rest))
      by exact (IH f rest Pms ltac:(discriminate) ltac:(simpl in Hf |- *; lia) Hr).
    change ((fun '(k0, v0) => string_text k0 +:+ ":" +:+ to_text v0) (k, v))
      with (string_text k +:+ ":" +:+ to_text v).
    rewrite member_text_app. simpl.
    rewrite parse_escape. simpl. rewrite Pv by parse_side. simpl. rewrite HT. reflexivity.
Qed.

Lemma parse_value_to_text v : forall fuel rest,
  (jsize v <= fuel)%nat -> delimited rest -> parse_value fuel (to_text v +:+ rest) = Some (v, rest).
Proof.
  induction v as [| b | n | | s | items IH | members IH] using json_ind';
    intros fuel rest Hf Hr; simpl jsize in Hf; destruct fuel as [|f]; try lia.
  - reflexivity.
  - destruct b; reflexivity.
  - apply parse_value_N; [lia|exact Hr].
  - destruct rest as [|c r]; [reflexivity|]. destruct Hr as [->|[->| ->]]; reflexivity.
  - change (to_text (JString s)) with (string_text s). rewrite string_text_app.
    simpl. rewrite parse_escape. reflexivity.
  - change (to_text (JArray items)) with ("[" +:+ Str.join "," (map to_text items) +:+ "]").
    rewrite !app_assoc_str. change ("]" +:+ rest) with (String (ch 93) rest).
    destruct items as [|x xs].
    + reflexivity.
    + destruct (to_text_head x) as [c [s [Hs [Hws [H93 H125]]]]].
      assert (Hj : exists t, Str.join "," (map to_text (x :: xs)) +:+ String (ch 93) rest
                            = String c t).
      { destruct xs as [|y ys].
        - exists (s +:+ String (ch 93) rest). cbn [map]. change (Str.join "," [?a]) with a.
          rewrite Hs. reflexivity.
        - cbn [map]. rewrite join_cons_app by discriminate. rewrite Hs. eexists. reflexivity. }
      destruct Hj as [t Ht].
      pose proof (parse_items_text (x :: xs) f rest IH ltac:(discriminate) ltac:(lia) Hr) as Hi.
      rewrite Ht in Hi |- *. change ("[" +:+ String c t) with (String (ch 91) (String c t)).
      simpl. rewrite Hws. unfold starts_with. rewrite Ascii.eqb_sym, H93. rewrite Hi.
      reflexivity.
  - change (to_text (JObject members))
      with ("{" +:+ Str.join "," (map (fun '(k, v) => string_text k +:+ ":" +:+ to_text v)
                                    members) +:+ "}").
    rewrite !app_assoc_str. change ("}" +:+ rest) with (String (ch 125) rest).
    destruct members as [|[k v] ms].
    + reflexivity.
    + assert (Hj : exists t, Str.join "," (map (fun '(k, v) => string_text k +:+ ":" +:+ to_text v)
                                            ((k, v) :: ms)) +:+ String (ch 125) rest
                            = String quote t).
      { destruct ms as [|m ms'].
        - change (map ?g [(k, v)]) with [g (k, v)]. change (Str.join "," [?a]) with a.
          change ((fun '(k0, v0) => string_text k0 +:+ ":" +:+ to_text v0) (k, v))
            with (string_text k +:+ ":" +:+ to_text v).
          rewrite member_text_app. eexists. reflexivity.
        - change (map ?g ((k, v) :: ?l)) with (g (k, v) :: map g l).
          rewrite join_cons_app by discriminate.
          change ((fun '(k0, v0) => string_text k0 +:+ ":" +:+ to_text v0) (k, v))
            with (string_text k +:+ ":" +:+ to_text v).
          rewrite member_text_app. eexists. reflexivity. }
      destruct Hj as [t Ht].
      pose proof (parse_members_text ((k, v) :: ms) f rest IH ltac:(discriminate)
                    ltac:(lia) Hr) as Hi.
      rewrite Ht in Hi |- *. change ("{" +:+ String quote t) with (String (ch 123) (String quote t)).
      simpl. rewrite Hi. reflexivity.
Qed.

Lemma length_app_str (a b : string) : String.length (a +:+ b) = (String.length a + String.length b)%nat.
Proof. induction a as [|x a IH]; [reflexivity|]. rewrite app_cons_str. simpl. rewrite IH. reflexivity. Qed.

Lemma join_length_bound (l : list string) :
  (fold_right (fun s acc => S (String.length s + acc)) O l <= S (String.length (Str.join "," l)))%nat.
Proof.
  induction l as [|a l IH]; [simpl; lia|].
  destruct l as [|b l]; [simpl; lia|].
  rewrite join_cons_cons, !length_app_str. simpl in IH |- *. lia.
Qed.

Lemma to_text_nonempty v : (1 <= String.length (to_text v))%nat.
Proof. destruct (to_text_head v) as [c [s [-> _]]]. simpl. lia. Qed.

Lemma jsize_le_length v : (jsize v <= String.length (to_text v))%nat.
Proof.
  induction v as [| b | n | | s | items IH | members IH] using json_ind';
    try apply to_text_nonempty.
  - change (to_text (JArray items)) with ("[" +:+ Str.join "," (map to_text items) +:+ "]").
    rewrite !length_app_str. simpl.
    pose proof (join_length_bound (map to_text items)).
    enough ((fold_right (fun i acc => S (jsize i + acc)) O items <=
             fold_right (fun s acc => S (String.length s + acc)) O (map to_text items))%nat)
      by lia.
    clear H. induction IH as [|x xs Hx _ IHxs]; simpl; lia.
  - change (to_text (JObject members))
      with ("{" +:+ Str.join "," (map (fun '(k, v) => string_text k +:+ ":" +:+ to_text v)
                                    members) +:+ "}").
    rewrite !length_app_str. simpl.
    pose proof (join_length_bound
                  (map (fun '(k, v) => string_text k +:+ ":" +:+ to_text v) members)).
    enough ((fold_right (fun kv acc => S (jsize (snd kv) + acc)) O members <=
             fold_right (fun s acc => S (String.length s + acc)) O
               (map (fun '(k, v) => string_text k +:+ ":" +:+ to_text v) members))%nat)
      by lia.
    clear H. induction IH as [|[k v] xs Hx _ IHxs]; [simpl; lia|].
    simpl in Hx |- *. rewrite !length_app_str. lia.
Qed.

Lemma parse_document_to_text v : parse_document (to_text v) = Some v.
Proof.
  unfold parse_document.
  pose proof (parse_value_to_text v (S (String.length (to_text v))) EmptyString
                ltac:(pose proof (jsize_le_length v); lia) I) as H.
  rewrite app_nil_r_str in H. rewrite H. reflexivity.
Qed.

End JsonFacts.

Lemma mapM_option_map {A} (f : Json.json -> option A) (g : A -> Json.json) (l : list A) :
  (forall x, In x l -> f (g x) = Some x) -> mapM f (map g l) = Some l.
Proof.
  induction l as [|x l IH]; intros H; [reflexivity|].
  cbn [map mapM]. rewrite H by (left; reflexivity).
  rewrite IH by (intros y Hy; apply H; right; exact Hy). reflexivity.
Qed.

Lemma usize_of_json_ok n : n < 2 ^ 64 -> CacheJson.usize_of_json (Json.JUInt n) = Some n.
Proof. intros H. unfold CacheJson.usize_of_json. apply N.ltb_lt in H. rewrite H. reflexivity. Qed.

Lemma range_json_roundtrip r :
  usize_range r -> CacheJson.range_of_json (CacheJson.range_to_json r) = Some r.
Proof.
  destruct r as [a b c d]. intros (Ha & Hb & Hc & Hd).
  unfold CacheJson.range_of_json, CacheJson.range_to_json.
  cbn -[CacheJson.usize_of_json].
  rewrite !usize_of_json_ok by assumption. reflexivity.
Qed.

Lemma unresolved_reference_json_roundtrip u :
  usize_range (ur_location u) ->
  CacheJson.unresolved_reference_of_json (CacheJson.unresolved_reference_to_json u) = Some u.
Proof.
  destruct u as [n ns l]. simpl. intros Hl.
  unfold CacheJson.unresolved_reference_of_json, CacheJson.unresolved_reference_to_json.
  cbn -[CacheJson.range_of_json CacheJson.range_to_json CacheJson.list_of_json].
  assert (Hns : mapM CacheJson.string_of_json (map Json.JString ns) = Some ns)
    by (apply mapM_option_map; reflexivity).
  destruct Hl as (H1 & H2 & H3 & H4). apply N.ltb_lt in H1, H2, H3, H4.
  rewrite Hns, H1, H2, H3, H4. destruct l. reflexivity.
Qed.

Lemma processed_file_json_roundtrip pf :
  Forall (fun u => usize_range (ur_location u)) (unresolved_references pf) ->
  CacheJson.processed_file_of_json (CacheJson.processed_file_to_json pf) = Some pf.
Proof.
  destruct pf as [p us]. simpl. intros Hus.
  unfold CacheJson.processed_file_of_json, CacheJson.processed_file_to_json.
  cbn -[CacheJson.unresolved_reference_of_json CacheJson.unresolved_reference_to_json
        CacheJson.list_of_json].
  assert (Hl : mapM CacheJson.unresolved_reference_of_json
                 (map CacheJson.unresolved_reference_to_json us) = Some us).
  { apply mapM_option_map. intros u Hu. apply unresolved_reference_json_roundtrip.
    rewrite Forall_forall in Hus. apply Hus, list_elem_of_In, Hu. }
  rewrite Hl. reflexivity.
Qed.

Lemma from_slice_to_string e :
  Forall (fun u => usize_range (ur_location u)) (unresolved_references (processed_file e)) ->
  CacheJson.from_slice (CacheJson.to_string e) = Some e.
Proof.
  intros H. unfold CacheJson.from_slice, CacheJson.to_string.
  rewrite JsonFacts.parse_document_to_text. cbn [mbind option_bind].
  destruct e as [d pf]. simpl in H.
  unfold CacheJson.cache_entry_of_json, CacheJson.cache_entry_to_json.
  cbn -[CacheJson.processed_file_of_json CacheJson.processed_file_to_json].
  rewrite processed_file_json_roundtrip by exact H. reflexivity.
Qed.

(** ** Cache round trip *)



(* ------------------------------------------------------------------ *)
(** ** Ordering of references *)

Lemma string_compare_lt_trans : forall s1 s2 s3,
  String.compare s1 s2 = Lt -> String.compare s2 s3 = Lt -> String.compare s1 s3 = Lt.
Proof.
  induction s1 as [|a1 s1 IH]; intros [|a2 s2] [|a3 s3]; simpl; try congruence.
  unfold Ascii.compare.
  destruct (N.compare_spec (N_of_ascii a1) (N_of_ascii a2)) as [E12|E12|E12];
  destruct (N.compare_spec (N_of_ascii a2) (N_of_ascii a3)) as [E23|E23|E23];
  intros H1 H2; try discriminate.
  - rewrite (proj2 (N.compare_eq_iff _ _)) by lia. eauto.
  - rewrite (proj2 (N.compare_lt_iff _ _)) by lia. reflexivity.
  - rewrite (proj2 (N.compare_lt_iff _ _)) by lia. reflexivity.
  - rewrite (proj2 (N.compare_lt_iff _ _)) by lia. reflexivity.
Qed.

Lemma string_compare_eq_iff s1 s2 : String.compare s1 s2 = Eq <-> s1 = s2.
Proof.
  split; [apply String.compare_eq_iff|intros <-].
  induction s1 as [|a s IH]; simpl; [reflexivity|].
  unfold Ascii.compare. rewrite N.compare_refl. exact IH.
Qed.

Lemma string_compare_spec : cmp_spec String.compare.
Proof.
  split.
  - apply string_compare_eq_iff.
  - intros x y. apply String.compare_antisym.
  - apply string_compare_lt_trans.
Qed.

Lemma N_compare_spec : cmp_spec N.compare.
Proof.
  split.
  - apply N.compare_eq_iff.
  - intros x y. apply N.compare_antisym.
  - intros x y z. rewrite !N.compare_lt_iff. lia.
Qed.

Lemma nat_compare_spec : cmp_spec Nat.compare.
Proof.
  split.
  - apply Nat.compare_eq_iff.
  - intros x y. apply Nat.compare_antisym.
  - intros x y z. rewrite !Nat.compare_lt_iff. lia.
Qed.

Lemma option_string_cmp_spec : cmp_spec option_string_cmp.
Proof.
  split.
  - intros [x|] [y|]; simpl; rewrite ?string_compare_eq_iff; split; congruence.
  - intros [x|] [y|]; simpl; try reflexivity. apply String.compare_antisym.
  - intros [x|] [y|] [z|]; simpl; try congruence. apply string_compare_lt_trans.
Qed.

Lemma prod_cmp_spec {A B} (ca : A -> A -> comparison) (cb : B -> B -> comparison) :
  cmp_spec ca -> cmp_spec cb -> cmp_spec (prod_cmp ca cb).
Proof.
  intros Ha Hb. split.
  - intros [x1 x2] [y1 y2]. unfold prod_cmp, then_with; simpl.
    destruct (ca x1 y1) eqn:E.
    + apply (cmp_eq _ Ha) in E. subst. rewrite (cmp_eq _ Hb). split; congruence.
    + split; [discriminate|]. intros [= <- <-].
      assert (ca x1 x1 = Eq) by (apply (cmp_eq _ Ha); reflexivity). congruence.
    + split; [discriminate|]. intros [= <- <-].
      assert (ca x1 x1 = Eq) by (apply (cmp_eq _ Ha); reflexivity). congruence.
  - intros [x1 x2] [y1 y2]. unfold prod_cmp, then_with; simpl.
    rewrite (cmp_antisym _ Ha x1 y1).
    destruct (ca x1 y1); simpl; [apply (cmp_antisym _ Hb)|reflexivity|reflexivity].
  - intros [x1 x2] [y1 y2] [z1 z2]. unfold prod_cmp, then_with; simpl.
    destruct (ca x1 y1) eqn:E1; destruct (ca y1 z1) eqn:E2; try discriminate.
    + apply (cmp_eq _ Ha) in E1, E2. subst.
      rewrite (proj2 (cmp_eq _ Ha z1 z1) eq_refl). apply (cmp_lt_trans _ Hb).
    + apply (cmp_eq _ Ha) in E1. subst. rewrite E2. reflexivity.
    + apply (cmp_eq _ Ha) in E2. subst. rewrite E1. reflexivity.
    + rewrite (cmp_lt_trans _ Ha _ _ _ E1 E2). reflexivity.
Qed.

Lemma cmp_trans_any {K} (cmp : K -> K -> comparison) c x y z :
  cmp_spec cmp -> cmp x y = c -> cmp y z = c -> cmp x z = c.
Proof.
  intros H. destruct c; intros H1 H2.
  - apply (cmp_eq _ H) in H1, H2. subst. apply (cmp_eq _ H). reflexivity.
  - apply (cmp_lt_trans _ H _ _ _ H1 H2).
  - assert (cmp y x = Lt) as H1' by (rewrite (cmp_antisym _ H), H1; reflexivity).
    assert (cmp z y = Lt) as H2' by (rewrite (cmp_antisym _ H), H2; reflexivity).
    rewrite (cmp_antisym _ H z x), (cmp_lt_trans _ H _ _ _ H2' H1'). reflexivity.
Qed.

Definition reference_key_cmp :=
  prod_cmp String.compare (prod_cmp option_string_cmp (prod_cmp String.compare
    (prod_cmp N.compare (prod_cmp N.compare Nat.compare)))).

Lemma reference_key_cmp_spec : cmp_spec reference_key_cmp.
Proof.
  unfold reference_key_cmp.
  repeat apply prod_cmp_spec; auto using string_compare_spec, option_string_cmp_spec,
    N_compare_spec, nat_compare_spec.
Qed.

Lemma reference_cmp_key a b :
  reference_cmp a b = reference_key_cmp (reference_key a) (reference_key b).
Proof. reflexivity. Qed.

(** [Reference::cmp] is a total preorder, as [sort] requires: swapping the
    arguments reverses the result, and each of [Less], [Equal] and
    [Greater] is transitive. *)
Theorem reference_cmp_total_preorder a b d c :
  reference_cmp b a = CompOpp (reference_cmp a b) /\
  (reference_cmp a b = c -> reference_cmp b d = c -> reference_cmp a d = c).
Proof.
  rewrite !reference_cmp_key. split.
  - apply (cmp_antisym _ reference_key_cmp_spec).
  - apply cmp_trans_any, reference_key_cmp_spec.
Qed.

(** [Reference::cmp] returns [Equal] exactly when the two references agree
    on the constant name, the defining file, the referencing file and the
    source location, and have the same number of extra fields: references
    whose extra fields differ only in their contents compare [Equal]. *)
Theorem reference_cmp_Equal_iff a b :
  reference_cmp a b = Eq <->
  constant_name a = constant_name b /\
  relative_defining_file a = relative_defining_file b /\
  relative_referencing_file a = relative_referencing_file b /\
  source_location a = source_location b /\
  size (extra_fields a) = size (extra_fields b).
Proof.
  rewrite reference_cmp_key, (cmp_eq _ reference_key_cmp_spec).
  destruct a as [n1 d1 r1 [l1 c1] x1], b as [n2 d2 r2 [l2 c2] x2]; unfold reference_key; simpl.
  split.
  - intros [= -> -> -> -> -> ->]. tauto.
  - intros (-> & -> & -> & [= -> ->] & ->). reflexivity.
Qed.

(* ------------------------------------------------------------------ *)
(** ** File types *)

Lemma path_ends_with_name p name :
  PathModel.components name = [name] ->
  path_ends_with p name = true -> last (PathModel.components p) = Some name.
Proof.
  intros Hc. unfold path_ends_with. rewrite Hc. simpl.
  destruct (reverse (PathModel.components p)) as [|c rest] eqn:E; simpl; [discriminate|].
  unfold Str.eqb. destruct (String.eqb name c) eqn:Ec; [|discriminate]. intros _.
  apply String.eqb_eq in Ec. subst c.
  rewrite <- (reverse_involutive (PathModel.components p)), E, reverse_cons.
  apply last_snoc.
Qed.

(** A path ending in a file name without ['.'] has no extension. *)
Lemma ends_with_plain_name_no_extension p name :
  PathModel.components name = [name] -> last_dot name = None ->
  path_ends_with p name = true -> path_extension p = None.
Proof.
  intros Hc Hd He. unfold path_extension, path_file_name.
  rewrite (path_ends_with_name p name Hc He).
  destruct (Str.eqb name "/" || Str.eqb name ".."); [reflexivity|].
  destruct (Str.eqb name ".."); [reflexivity|]. rewrite Hd. reflexivity.
Qed.

(** The two [get_file_type] functions of the crate, the processor's with
    the default configuration and the one of [file_utils], classify every
    path alike, although one tests for [erb] first and the other last: a
    path ending in [Gemfile] or [Rakefile] has no extension. *)
Theorem get_file_type_default_agrees p :
  Processor.get_file_type default_ruby_extensions default_ruby_special_files p
  = FileUtils.get_file_type p.
Proof.
  unfold Processor.get_file_type, FileUtils.get_file_type,
    default_ruby_extensions, default_ruby_special_files. cbv zeta.
  destruct (extension_is (path_extension p) "erb") eqn:He; [|reflexivity].
  assert (Hx : path_extension p = Some "erb").
  { destruct (path_extension p) as [e|]; simpl in He; [|discriminate].
    unfold Str.eqb in He. apply String.eqb_eq in He. subst. reflexivity. }
  rewrite Hx. simpl existsb.
  destruct (path_ends_with p "Gemfile") eqn:G.
  { rewrite (ends_with_plain_name_no_extension p "Gemfile") in Hx by (reflexivity || exact G).
    discriminate. }
  destruct (path_ends_with p "Rakefile") eqn:R.
  { rewrite (ends_with_plain_name_no_extension p "Rakefile") in Hx by (reflexivity || exact R).
    discriminate. }
  reflexivity.
Qed.

(* ------------------------------------------------------------------ *)
(** ** The cache beyond one file *)

Lemma cache_get_miss_entry md5_hex dir fs path k :
  cache_get md5_hex dir fs path = Ok (Miss k) ->
  exists contents, fs !! path = Some contents /\
    k = mkEmptyCacheEntry path (md5_hex contents) (md5_hex path)
          (cache_file_path_from_digest dir (md5_hex path)).
Proof.
  unfold cache_get, empty_cache_entry_new, file_content_digest.
  destruct (fs !! path) as [contents|]; [|discriminate]. intros H.
  exists contents. split; [reflexivity|].
  destruct (cache_entry_from_empty fs _) as [e|];
    [destruct (Str.eqb _ _)|]; injection H as H; congruence.
Qed.

(** The proof of the round trip, kept apart for the statements below. *)
Lemma cache_get_after_write md5_hex dir fs path contents k pf :
  fs !! path = Some contents ->
  cache_get md5_hex dir fs path = Ok (Miss k) ->
  cache_write fs k pf !! path = Some contents ->
  Forall (fun u => usize_range (ur_location u)) (unresolved_references pf) ->
  cache_get md5_hex dir (cache_write fs k pf) path = Ok (Processed pf).
Proof.
  intros Hp Hget Hw Hpf.
  destruct (cache_get_miss_entry _ _ _ _ _ Hget) as [c [Hc Hk]].
  rewrite Hp in Hc. injection Hc as <-.
  unfold cache_get, empty_cache_entry_new, file_content_digest. rewrite Hw.
  unfold cache_entry_from_empty, cache_write. subst k. cbn [cache_file_path].
  rewrite lookup_insert_eq, from_slice_to_string by exact Hpf.
  simpl. rewrite String.eqb_refl. reflexivity.
Qed.


(** The directory part of [Path::join]. *)
Definition dir_prefix (dir : string) : string :=
  match String.length dir with
  | O => EmptyString
  | S k => if Str.eqb (String.substring k 1 dir) "/" then dir else dir +:+ "/"
  end.

Lemma join_dir_prefix dir a : PathModel.join dir a = dir_prefix dir +:+ a.
Proof.
  unfold PathModel.join, dir_prefix.
  destruct (String.length dir); [reflexivity|].
  destruct (Str.eqb _ _); [reflexivity|]. symmetry. apply JsonFacts.app_assoc_str.
Qed.

Lemma length_app_string (a b : string) :
  String.length (a +:+ b) = (String.length a + String.length b)%nat.
Proof. induction a as [|c a IH]; [reflexivity|]. simpl. rewrite IH. reflexivity. Qed.

Lemma substring_app_r (a b : string) n m :
  String.substring (String.length a + n) m (a +:+ b) = String.substring n m b.
Proof. induction a as [|c a IH]; [reflexivity|]. exact IH. Qed.

Lemma substring_full s : String.substring 0 (String.length s) s = s.
Proof. induction s as [|c s IH]; [reflexivity|]. simpl. rewrite IH. reflexivity. Qed.

Lemma cache_file_path_shape dir x y rest :
  y <> PathModel.slash ->
  cache_file_path_from_digest dir (String x (String y rest)) =
  dir_prefix dir +:+ String x (String y (String PathModel.slash rest)).
Proof.
  intros Hy. unfold cache_file_path_from_digest.
  rewrite (join_dir_prefix dir). simpl String.substring.
  rewrite Nat.sub_0_r, substring_full.
  unfold PathModel.join.
  replace (String.substring 0 0 rest) with EmptyString by (destruct rest; reflexivity).
  rewrite length_app_string. simpl String.length.
  replace (String.length (dir_prefix dir) + 2)%nat with (S (String.length (dir_prefix dir) + 1))
    by lia.
  rewrite substring_app_r. simpl String.substring.
  unfold Str.eqb. destruct (String.eqb (String y EmptyString) "/") eqn:E.
  { apply String.eqb_eq in E. injection E as E. exfalso. apply Hy. exact E. }
  rewrite !JsonFacts.app_assoc_str. reflexivity.
Qed.

Lemma digest_ok_cons2 d :
  digest_ok d = true ->
  exists x y rest, d = String x (String y rest) /\ y <> PathModel.slash.
Proof.
  unfold digest_ok. intros H. apply andb_prop in H as [Hl Hs].
  destruct d as [|x [|y rest]]; simpl in Hl; try discriminate.
  exists x, y, rest. split; [reflexivity|].
  simpl in Hs. apply andb_prop in Hs as [_ Hs]. apply andb_prop in Hs as [Hs _].
  intros ->. rewrite Ascii.eqb_refl in Hs. discriminate.
Qed.

Lemma cache_file_path_inj dir d1 d2 :
  digest_ok d1 = true -> digest_ok d2 = true ->
  cache_file_path_from_digest dir d1 = cache_file_path_from_digest dir d2 -> d1 = d2.
Proof.
  intros H1 H2.
  destruct (digest_ok_cons2 _ H1) as (x1 & y1 & r1 & -> & Hy1).
  destruct (digest_ok_cons2 _ H2) as (x2 & y2 & r2 & -> & Hy2).
  rewrite !cache_file_path_shape by assumption.
  intros E. apply (String.app_inj (dir_prefix dir)) in E.
  injection E as -> -> ->. reflexivity.
Qed.

(** Two files whose name digests differ never share a cache file: for
    [md5] digests (two characters or more, no ['/']) the path
    [cache_dir/d[..2]/d[2..]] determines the digest [d]. *)
Theorem distinct_digests_distinct_cache_files dir d1 d2 :
  digest_ok d1 = true -> digest_ok d2 = true -> d1 <> d2 ->
  cache_file_path_from_digest dir d1 <> cache_file_path_from_digest dir d2.
Proof.
  intros H1 H2 Hne E. apply Hne. exact (cache_file_path_inj dir d1 d2 H1 H2 E).
Qed.

Lemma distinct_digests_distinct_cache_files_witness :
  cache_file_path_from_digest "/c" "abcd" <> cache_file_path_from_digest "/c" "abce".
Proof.
  apply (distinct_digests_distinct_cache_files "/c" "abcd" "abce").
  - reflexivity.
  - reflexivity.
  - discriminate.
Defined.

(** Writing the entry of a file [P] after a miss leaves [get(Q)] unchanged
    for every other file [Q] whose name digest differs from [P]'s, as long
    as [Q] is not the cache file itself. *)
Theorem cache_write_keeps_other_entries md5_hex cache_dir fs P Q k pf :
  cache_get md5_hex cache_dir fs P = Ok (Miss k) ->
  digest_ok (md5_hex P) = true -> digest_ok (md5_hex Q) = true ->
  md5_hex P <> md5_hex Q ->
  Q <> cache_file_path k ->
  cache_get md5_hex cache_dir (cache_write fs k pf) Q = cache_get md5_hex cache_dir fs Q.
Proof.
  intros Hget HP HQ Hne HQk.
  destruct (cache_get_miss_entry _ _ _ _ _ Hget) as [c [_ ->]].
  cbn [cache_file_path] in HQk.
  assert (Hcp : cache_file_path_from_digest cache_dir (md5_hex P)
                <> cache_file_path_from_digest cache_dir (md5_hex Q)).
  { intros E. apply Hne. exact (cache_file_path_inj _ _ _ HP HQ E). }
  unfold cache_get, empty_cache_entry_new, file_content_digest, cache_write.
  cbn [cache_file_path].
  rewrite lookup_insert_ne by congruence.
  destruct (fs !! Q) as [contents|]; [|reflexivity].
  unfold cache_entry_from_empty. cbn [cache_file_path].
  rewrite lookup_insert_ne by exact Hcp. reflexivity.
Qed.

Lemma cache_write_keeps_other_entries_witness :
  let fs := <["Q.rb" := "q"]> (<["P.rb" := "p"]> (∅ : FileSystem)) in
  let k := mkEmptyCacheEntry "P.rb" "p" "P.rb" "/c/P./rb" in
  cache_get (fun s => s) "/c"
    (cache_write fs k (mkProcessedFile "P.rb" [])) "Q.rb"
  = cache_get (fun s => s) "/c" fs "Q.rb".
Proof.
  intros fs k.
  refine (cache_write_keeps_other_entries (fun s => s) "/c" fs "P.rb" "Q.rb" k
            (mkProcessedFile "P.rb" []) _ _ _ _ _).
  - vm_compute. reflexivity.
  - reflexivity.
  - reflexivity.
  - discriminate.
  - discriminate.
Defined.



(* ------------------------------------------------------------------ *)
(** ** The definition-to-location map of the self-reference filter *)

Lemma fold_insert_prefix_lookup parts loc is : forall m k,
  fold_left (insert_prefix parts loc) is m !! k =
  match m !! k with
  | Some l => Some l
  | None =>
      if bool_decide (k ∈ map (fun index => Str.join "::" (take (S index) parts)) is)
      then Some loc else None
  end.
Proof.
  induction is as [|i is IH]; intros m k; simpl.
  - destruct (m !! k); reflexivity.
  - rewrite IH. unfold insert_prefix.
    set (comb := Str.join "::" (take (S i) parts)).
    destruct (m !! comb) as [l0|] eqn:Ec.
    + destruct (m !! k) as [l|] eqn:Ek; [reflexivity|].
      assert (comb <> k) by congruence.
      case_bool_decide as H1; case_bool_decide as H2; try reflexivity.
      * exfalso. apply H2. apply elem_of_cons. right. exact H1.
      * exfalso. apply elem_of_cons in H2 as [H2|H2]; [congruence|contradiction].
    + destruct (decide (comb = k)) as [<-|Hne].
      * rewrite lookup_insert_eq, Ec. rewrite bool_decide_true; [reflexivity|].
        apply elem_of_cons. left. reflexivity.
      * rewrite lookup_insert_ne by exact Hne.
        destruct (m !! k) as [l|]; [reflexivity|].
        case_bool_decide as H1; case_bool_decide as H2; try reflexivity.
        -- exfalso. apply H2. apply elem_of_cons. right. exact H1.
        -- exfalso. apply elem_of_cons in H2 as [H2|H2]; [congruence|contradiction].
Qed.

Lemma fold_insert_definition_lookup defs : forall m k,
  fold_left insert_definition defs m !! k =
  match m !! k with
  | Some l => Some l
  | None => pd_location <$> List.find
              (fun d => bool_decide (k ∈ prefix_keys (pd_fully_qualified_name d))) defs
  end.
Proof.
  induction defs as [|d defs IH]; intros m k; simpl.
  - destruct (m !! k); reflexivity.
  - rewrite IH. unfold insert_definition. rewrite fold_insert_prefix_lookup.
    unfold prefix_keys.
    destruct (m !! k); [reflexivity|].
    destruct (bool_decide _); reflexivity.
Qed.

(** [definition_to_location_map] maps every ["::"]-joined prefix of a
    definition's name to the location of the first definition, in the
    collector's order, that has this prefix; later definitions never
    overwrite it, and other strings are not keys. *)
Theorem definition_to_location_map_first_definition definitions k :
  definition_to_location_map definitions !! k =
  pd_location <$> List.find
    (fun d => bool_decide (k ∈ prefix_keys (pd_fully_qualified_name d))) definitions.
Proof.
  unfold definition_to_location_map. rewrite fold_insert_definition_lookup.
  rewrite lookup_empty. reflexivity.
Qed.

Lemma fold_ignore_step_empty r candidates :
  fold_left (ignore_step ∅ r) candidates false = false.
Proof.
  induction candidates as [|c cs IH]; [reflexivity|]. simpl.
  unfold ignore_step at 2, lookup_candidate. rewrite !lookup_empty. exact IH.
Qed.

(** A file without definitions loses no reference to the self-reference
    filter, whatever the candidate names. *)
Theorem filter_without_definitions possible_fully_qualified_constants references :
  filter possible_fully_qualified_constants references [] = references.
Proof.
  unfold filter. change (definition_to_location_map []) with (∅ : gmap string Range).
  induction references as [|r rs IH]; [reflexivity|]. simpl.
  unfold keep_reference at 1. rewrite fold_ignore_step_empty. simpl. rewrite IH. reflexivity.
Qed.

(* ------------------------------------------------------------------ *)
(** ** Invariants of the collector's traversal *)

Section NodeInduction.

Variable P : Node -> Prop.
Hypothesis H_Class : forall name superclass body,
  P name -> opt_P P superclass -> opt_P P body -> P (Class name superclass body).
Hypothesis H_Module : forall name body, P name -> opt_P P body -> P (Module name body).
Hypothesis H_Const : forall scope name l, opt_P P scope -> P (Const scope name l).
Hypothesis H_Cbase : P Cbase.
Hypothesis H_Send : forall recv method_name args l,
  opt_P P recv -> Forall P args -> P (Send recv method_name args l).
Hypothesis H_Casgn : forall scope name value l,
  opt_P P scope -> opt_P P value -> P (Casgn scope name value l).
Hypothesis H_Sym : forall s, P (Sym s).
Hypothesis H_Str : forall s, P (Str_ s).
Hypothesis H_Kwargs : forall pairs, Forall P pairs -> P (Kwargs pairs).
Hypothesis H_Pair : forall k v, P k -> P v -> P (Pair k v).
Hypothesis H_Lvar : forall s, P (Lvar s).
Hypothesis H_Ivar : forall s, P (Ivar s).
Hypothesis H_Self : P Self_.
Hypothesis H_Begin : forall statements, Forall P statements -> P (Begin statements).

Fixpoint Node_ind' (n : Node) : P n :=
  let opt (o : option Node) : opt_P P o :=
    match o return opt_P P o with
    | Some m => Node_ind' m
    | None => I
    end in
  let fix all (l : list Node) : Forall P l :=
    match l return Forall P l with
    | [] => @List.Forall_nil _ P
    | x :: xs => @List.Forall_cons _ P x xs (Node_ind' x) (all xs)
    end in
  match n with
  | Class name superclass body => H_Class name superclass body (Node_ind' name) (opt superclass) (opt body)
  | Module name body => H_Module name body (Node_ind' name) (opt body)
  | Const scope name l => H_Const scope name l (opt scope)
  | Cbase => H_Cbase
  | Send recv m args l => H_Send recv m args l (opt recv) (all args)
  | Casgn scope name value l => H_Casgn scope name value l (opt scope) (opt value)
  | Sym s => H_Sym s
  | Str_ s => H_Str s
  | Kwargs pairs => H_Kwargs pairs (all pairs)
  | Pair k v => H_Pair k v (Node_ind' k) (Node_ind' v)
  | Lvar s => H_Lvar s
  | Ivar s => H_Ivar s
  | Self_ => H_Self
  | Begin statements => H_Begin statements (all statements)
  end.

End NodeInduction.

Lemma grows_refl c : collector_grows c c.
Proof.
  split; [exists []; rewrite app_nil_r; reflexivity|].
  exists []. rewrite app_nil_r. split; [reflexivity|constructor].
Qed.

Lemma grows_trans c1 c2 c3 :
  collector_grows c1 c2 -> collector_grows c2 c3 -> collector_grows c1 c3.
Proof.
  intros [[rs1 R1] [ds1 [D1 F1]]] [[rs2 R2] [ds2 [D2 F2]]]. split.
  - exists (rs1 ++ rs2). rewrite R2, R1, app_assoc. reflexivity.
  - exists (ds1 ++ ds2). rewrite D2, D1, app_assoc. split; [reflexivity|].
    apply Forall_app. split; assumption.
Qed.

Lemma extends_refl c : collector_extends c c.
Proof. split; [reflexivity|apply grows_refl]. Qed.

Lemma extends_trans c1 c2 c3 :
  collector_extends c1 c2 -> collector_extends c2 c3 -> collector_extends c1 c3.
Proof.
  intros [N1 G1] [N2 G2]. split; [congruence|]. eapply grows_trans; eassumption.
Qed.

Lemma grows_same c c' :
  references c' = references c -> definitions c' = definitions c -> collector_grows c c'.
Proof.
  intros R D. split; [exists []|exists []]; rewrite ?app_nil_r; [exact R|].
  split; [exact D|constructor].
Qed.

Lemma push_reference_grows r c : collector_grows c (push_reference r c).
Proof.
  split; [exists [r]; reflexivity|].
  exists []. rewrite app_nil_r. split; [reflexivity|constructor].
Qed.

Lemma push_definition_grows d c :
  rooted (pd_fully_qualified_name d) -> collector_grows c (push_definition d c).
Proof.
  intros Hd. split; [exists []; rewrite app_nil_r; reflexivity|].
  exists [d]. split; [reflexivity|]. constructor; [exact Hd|constructor].
Qed.

Lemma get_definition_from_rooted ns parents loc :
  rooted (pd_fully_qualified_name (get_definition_from ns parents loc)).
Proof. unfold get_definition_from. destruct parents; simpl; eexists; reflexivity. Qed.

Lemma declare_spec env ns name c c' :
  declare env ns name c = Done c' ->
  current_namespaces c' = current_namespaces c ++ [ns] /\ collector_grows c c'.
Proof.
  unfold declare, mbind, outcome_mbind, obind.
  destruct (fetch_node_location name) as [l|]; [|discriminate].
  intros [= <-]. split; [reflexivity|].
  eapply grows_trans; [apply push_definition_grows, get_definition_from_rooted|].
  eapply grows_trans; [apply push_reference_grows|].
  apply grows_same; reflexivity.
Qed.

Lemma on_const_named_extends env name l c :
  collector_extends c (on_const_named env name l c).
Proof.
  unfold on_const_named. split.
  - destruct (in_superclass c); reflexivity.
  - eapply grows_trans; [|apply push_reference_grows].
    destruct (in_superclass c); apply grows_same; reflexivity.
Qed.

Lemma removelast_snoc {A} (l : list A) x : removelast (l ++ [x]) = l.
Proof.
  induction l as [|y l IH]; [reflexivity|]. simpl. rewrite IH.
  destruct (l ++ [x]) eqn:E; [destruct l; discriminate|reflexivity].
Qed.

Ltac opt_done := unfold mbind, outcome_mbind, obind in *.

Lemma visit_extends env n : forall c c', visit env n c = Done c' -> collector_extends c c'.
Proof.
  induction n as [name superclass body IHn IHs IHb | name body IHn IHb
    | scope name l IHs | | recv m args l IHr IHa | scope name value l IHs IHv
    | s | s | pairs IHp | k v IHk IHv | s | s | | statements IHst] using Node_ind';
    intros c c' H; simpl in H; opt_done.
  - (* Class *)
    destruct (fetch_const_name name) as [ns|]; [|injection H as <-; apply extends_refl].
    destruct superclass as [inner|].
    + destruct (visit env inner (set_in_superclass true c)) as [c1|] eqn:E1;
        [|discriminate].
      pose proof (IHs _ _ E1) as [N1 G1].
      destruct (declare env ns name (set_in_superclass false c1)) as [c2|] eqn:E2;
        [|discriminate].
      destruct (declare_spec _ _ _ _ _ E2) as [N2 G2].
      destruct body as [b|].
      * destruct (visit env b c2) as [c3|] eqn:E3; [|discriminate].
        pose proof (IHb _ _ E3) as [N3 G3].
        injection H as <-. split.
        -- simpl. rewrite N3, N2. simpl. rewrite N1, removelast_snoc. reflexivity.
        -- eapply grows_trans; [exact G1|]. eapply grows_trans; [exact G2|].
           eapply grows_trans; [exact G3|]. apply grows_same; reflexivity.
      * injection H as <-. split.
        -- simpl. rewrite N2. simpl. rewrite N1, removelast_snoc. reflexivity.
        -- eapply grows_trans; [exact G1|]. eapply grows_trans; [exact G2|].
           apply grows_same; reflexivity.
    + destruct (declare env ns name c) as [c2|] eqn:E2; [|discriminate].
      destruct (declare_spec _ _ _ _ _ E2) as [N2 G2].
      destruct body as [b|].
      * destruct (visit env b c2) as [c3|] eqn:E3; [|discriminate].
        pose proof (IHb _ _ E3) as [N3 G3].
        injection H as <-. split.
        -- simpl. rewrite N3, N2, removelast_snoc. reflexivity.
        -- eapply grows_trans; [exact G2|].
           eapply grows_trans; [exact G3|]. apply grows_same; reflexivity.
      * injection H as <-. split.
        -- simpl. rewrite N2, removelast_snoc. reflexivity.
        -- eapply grows_trans; [exact G2|]. apply grows_same; reflexivity.
  - (* Module *)
    destruct (fetch_const_name name) as [ns|]; [|discriminate].
    destruct (declare env ns name c) as [c2|] eqn:E2; [|discriminate].
    destruct (declare_spec _ _ _ _ _ E2) as [N2 G2].
    destruct body as [b|].
    + destruct (visit env b c2) as [c3|] eqn:E3; [|discriminate].
      pose proof (IHb _ _ E3) as [N3 G3].
      injection H as <-. split.
      * simpl. rewrite N3, N2, removelast_snoc. reflexivity.
      * eapply grows_trans; [exact G2|].
        eapply grows_trans; [exact G3|]. apply grows_same; reflexivity.
    + injection H as <-. split.
      * simpl. rewrite N2, removelast_snoc. reflexivity.
      * eapply grows_trans; [exact G2|]. apply grows_same; reflexivity.
  - (* Const *)
    destruct (fetch_const_const_name scope name) as [n|];
      injection H as <-; [apply on_const_named_extends|apply extends_refl].
  - injection H as <-. apply extends_refl.
  - (* Send *)
    set (c0 := match get_reference_from_active_record_association _ _ _ _ _ _ with
               | Some r => push_reference r c | None => c end) in H.
    assert (H0 : collector_extends c c0).
    { subst c0. destruct (get_reference_from_active_record_association _ _ _ _ _ _);
        [split; [reflexivity|apply push_reference_grows]|apply extends_refl]. }
    clearbody c0.
    assert (Hrecv : exists c1, collector_extends c0 c1 /\
               (fix visit_all (nodes : list Node) (c : ReferenceCollector)
                    : outcome ReferenceCollector :=
                  match nodes with
                  | [] => Done c
                  | n :: rest => obind (visit env n c) (fun c => visit_all rest c)
                  end) args c1 = Done c').
    { destruct recv as [r|].
      - destruct (visit env r c0) as [c1|] eqn:E1; [|discriminate].
        exists c1. split; [exact (IHr _ _ E1)|exact H].
      - exists c0. split; [apply extends_refl|exact H]. }
    destruct Hrecv as [c1 [E1 Hall]].
    eapply extends_trans; [exact H0|]. eapply extends_trans; [exact E1|].
    clear - IHa Hall. revert c1 c' Hall.
    induction IHa as [|x xs Hx _ IH]; intros c1 c' Hall; simpl in Hall.
    + injection Hall as <-. apply extends_refl.
    + unfold obind in Hall. destruct (visit env x c1) as [c2|] eqn:E; [|discriminate].
      eapply extends_trans; [exact (Hx _ _ E)|exact (IH _ _ Hall)].
  - (* Casgn *)
    set (c0 := match get_constant_assignment_definition _ _ _ _ _ with
               | Some d => push_definition d c | None => c end) in H.
    assert (H0 : collector_extends c c0).
    { subst c0. unfold get_constant_assignment_definition.
      destruct (fetch_casgn_name scope name) as [n|]; [|apply extends_refl].
      split; [reflexivity|]. apply push_definition_grows.
      destruct (current_namespaces c); simpl; eexists; reflexivity. }
    clearbody c0. destruct value as [v|].
    + eapply extends_trans; [exact H0|exact (IHv _ _ H)].
    + injection H as <-. exact H0.
  - injection H as <-. apply extends_refl.
  - injection H as <-. apply extends_refl.
  - (* Kwargs *)
    revert c c' H. induction IHp as [|x xs Hx _ IH]; intros c c' H; simpl in H.
    + injection H as <-. apply extends_refl.
    + unfold obind in H. destruct (visit env x c) as [c2|] eqn:E; [|discriminate].
      eapply extends_trans; [exact (Hx _ _ E)|exact (IH _ _ H)].
  - (* Pair *)
    destruct (visit env k c) as [c2|] eqn:E; [|discriminate].
    eapply extends_trans; [exact (IHk _ _ E)|exact (IHv _ _ H)].
  - injection H as <-. apply extends_refl.
  - injection H as <-. apply extends_refl.
  - injection H as <-. apply extends_refl.
  - (* Begin *)
    revert c c' H. induction IHst as [|x xs Hx _ IH]; intros c c' H; simpl in H.
    + injection H as <-. apply extends_refl.
    + unfold obind in H. destruct (visit env x c) as [c2|] eqn:E; [|discriminate].
      eapply extends_trans; [exact (Hx _ _ E)|exact (IH _ _ H)].
Qed.

(** Visiting any node leaves the namespace stack as it found it, and
    only appends to the collected references and definitions. *)
Theorem visit_restores_namespaces_and_appends env ast c c' :
  visit env ast c = Done c' ->
  current_namespaces c' = current_namespaces c /\
  (exists rs, references c' = references c ++ rs) /\
  (exists ds, definitions c' = definitions c ++ ds).
Proof.
  intros H. destruct (visit_extends env ast c c' H) as [N [R [ds [D _]]]].
  split; [exact N|]. split; [exact R|]. exists ds. exact D.
Qed.

Lemma visit_restores_namespaces_and_appends_witness :
  let env := mkCollectorEnv "module Foo; Bar; end" [] in
  let ast := Module (Const None "Foo" (mkLoc 7 10))
               (Some (Const None "Bar" (mkLoc 12 15))) in
  let c := mkReferenceCollector [] [] ["Outer"%string] false [] in
  let c' := match visit env ast c with Done c' => c' | Panic => c end in
  visit env ast c = Done c' /\
  (current_namespaces c' = current_namespaces c /\
   (exists rs, references c' = references c ++ rs) /\
   (exists ds, definitions c' = definitions c ++ ds)).
Proof.
  intros env ast c c'. split; [vm_compute; reflexivity|].
  apply (visit_restores_namespaces_and_appends env ast). vm_compute; reflexivity.
Defined.

(** Every definition the collector records, from classes, modules and
    constant assignments alike, has a fully qualified name that starts
    with ["::"]. *)
Theorem collected_definitions_rooted env ast c' :
  visit env ast new_collector = Done c' ->
  Forall (fun d => rooted (pd_fully_qualified_name d)) (definitions c').
Proof.
  intros H. destruct (visit_extends env ast new_collector c' H) as [_ [_ [ds [D F]]]].
  rewrite D. exact F.
Qed.

Lemma collected_definitions_rooted_witness :
  let env := mkCollectorEnv "module Foo; BAR = 1; end" [] in
  let ast := Module (Const None "Foo" (mkLoc 7 10))
               (Some (Casgn None "BAR" None (mkLoc 12 15))) in
  let c' := match visit env ast new_collector with Done c' => c' | Panic => new_collector end in
  visit env ast new_collector = Done c' /\
  Forall (fun d => rooted (pd_fully_qualified_name d)) (definitions c').
Proof.
  intros env ast c'. split; [vm_compute; reflexivity|].
  apply (collected_definitions_rooted env ast). vm_compute; reflexivity.
Defined.


Lemma filter_sublist {A} (f : A -> bool) (l : list A) : List.filter f l `sublist_of` l.
Proof.
  induction l as [|x l IH]; simpl; [constructor|].
  destruct (f x); constructor; exact IH.
Qed.

(** Turning [include_reference_is_definition] on never loses a
    reference: when processing succeeds without it, it succeeds with it on
    the same path, and the references found without it are a sublist of
    those found with it. *)
Theorem include_reference_is_definition_keeps_more pfqc env path ast pf :
  process_from_ast pfqc env false path ast = Done pf ->
  exists pf', process_from_ast pfqc env true path ast = Done pf' /\
    absolute_path pf' = absolute_path pf /\
    unresolved_references pf `sublist_of` unresolved_references pf'.
Proof.
  unfold process_from_ast, mbind, outcome_mbind, obind. destruct ast as [ast|].
  - destruct (visit env ast new_collector) as [c|]; [|discriminate].
    intros [= <-]. eexists. split; [reflexivity|]. split; [reflexivity|].
    apply filter_sublist.
  - intros [= <-]. eexists. split; [reflexivity|]. split; reflexivity.
Qed.

Lemma include_reference_is_definition_keeps_more_witness :
  let env := mkCollectorEnv "module Foo; end" [] in
  let ast := Some (Module (Const None "Foo" (mkLoc 7 10)) None) in
  let pf := match process_from_ast possible_fully_qualified_constants_spec env false "a.rb" ast
            with Done pf => pf | Panic => mkProcessedFile "" [] end in
  process_from_ast possible_fully_qualified_constants_spec env false "a.rb" ast = Done pf /\
  exists pf', process_from_ast possible_fully_qualified_constants_spec env true "a.rb" ast = Done pf' /\
    absolute_path pf' = absolute_path pf /\
    unresolved_references pf `sublist_of` unresolved_references pf'.
Proof.
  intros env ast pf. split; [vm_compute; reflexivity|].
  apply include_reference_is_definition_keeps_more. vm_compute; reflexivity.
Defined.

(* ------------------------------------------------------------------ *)
(** ** Building the references of all files *)

Section AllReferences.

Variable cfg : BuilderConfiguration.
Variable resolve : string -> list string -> option (list ConstantDefinition).

Let all_references_step :=
  fun (acc : result (list Reference)) (processed_file : ProcessedFile) =>
    match acc with
    | Err e => Err e
    | Ok acc =>
        extend_with_references cfg resolve (absolute_path processed_file)
          (unresolved_references processed_file) acc
    end.

Lemma extend_with_references_ok p us : forall acc rs,
  extend_with_references cfg resolve p us acc = Ok rs <->
  exists rss, Forall2 (fun u r => from_unresolved_reference cfg resolve u p = Ok r) us rss /\
              rs = acc ++ concat rss.
Proof.
  induction us as [|u us IH]; intros acc rs; simpl.
  - split.
    + intros [= <-]. exists []. split; [constructor|]. rewrite app_nil_r. reflexivity.
    + intros [rss [F ->]]. inversion F; subst. simpl. rewrite app_nil_r. reflexivity.
  - destruct (from_unresolved_reference cfg resolve u p) as [nr|e] eqn:E.
    + rewrite IH. split.
      * intros [rss [F ->]]. exists (nr :: rss). split; [constructor; assumption|].
        simpl. rewrite app_assoc. reflexivity.
      * intros [rss [F ->]]. inversion F as [|u' r us' rss' Hr F']; subst.
        rewrite E in Hr. injection Hr as <-. exists rss'. split; [exact F'|].
        simpl. rewrite app_assoc. reflexivity.
    + split; [discriminate|].
      intros [rss [F _]]. inversion F; subst. congruence.
Qed.

Lemma extend_with_references_err p us acc :
  (exists e, extend_with_references cfg resolve p us acc = Err e) <->
  exists u e, In u us /\ from_unresolved_reference cfg resolve u p = Err e.
Proof.
  revert acc. induction us as [|u us IH]; intros acc; simpl.
  - split; [intros [e H]; discriminate|intros (u & e & [] & _)].
  - destruct (from_unresolved_reference cfg resolve u p) as [nr|e] eqn:E.
    + rewrite IH. split.
      * intros (u' & e & Hin & He). exists u', e. split; [right; exact Hin|exact He].
      * intros (u' & e & [<-|Hin] & He); [congruence|]. exists u', e. split; assumption.
    + split; [intros _; exists u, e; split; [left; reflexivity|exact E]|].
      intros _. exists e. reflexivity.
Qed.

Lemma all_references_fold_err files e :
  fold_left all_references_step files (Err e) = Err e.
Proof. induction files as [|pf files IH]; [reflexivity|exact IH]. Qed.

Lemma Forall2_map_pair {B} (R : string * UnresolvedReference -> B -> Prop) p us rss :
  Forall2 R (map (fun u => (p, u)) us) rss <-> Forall2 (fun u r => R (p, u) r) us rss.
Proof.
  revert rss. induction us as [|u us IH]; intros rss; simpl.
  - split; intros F; inversion F; constructor.
  - split; intros F; inversion F; subst; constructor; try assumption; apply IH; assumption.
Qed.

Lemma all_references_fold_ok files : forall acc rs,
  fold_left all_references_step files (Ok acc) = Ok rs <->
  exists rss, Forall2 (fun '(p, u) r => from_unresolved_reference cfg resolve u p = Ok r)
                (file_reference_pairs files) rss /\
              rs = acc ++ concat rss.
Proof.
  induction files as [|pf files IH]; intros acc rs.
  - simpl. split.
    + intros [= <-]. exists []. split; [constructor|]. rewrite app_nil_r. reflexivity.
    + intros [rss [F ->]]. inversion F; subst. simpl. rewrite app_nil_r. reflexivity.
  - cbn [fold_left].
    change (all_references_step (Ok acc) pf) with
      (extend_with_references cfg resolve (absolute_path pf) (unresolved_references pf) acc).
    destruct (extend_with_references cfg resolve (absolute_path pf)
                (unresolved_references pf) acc) as [acc'|e] eqn:E.
    + apply extend_with_references_ok in E as [rss1 [F1 ->]].
      rewrite IH. split.
      * intros [rss2 [F2 ->]]. exists (rss1 ++ rss2). split.
        -- apply List.Forall2_app; [|exact F2]. apply Forall2_map_pair. exact F1.
        -- rewrite concat_app, app_assoc. reflexivity.
      * intros [rss [F ->]].
        apply List.Forall2_app_inv_l in F as (rss1' & rss2 & F1' & F2 & ->).
        apply Forall2_map_pair in F1'.
        assert (Hsame : rss1' = rss1).
        { clear - F1 F1'. revert rss1 rss1' F1 F1'.
          induction (unresolved_references pf) as [|u us IHu]; intros rss1 rss1' F1 F1';
            inversion F1; inversion F1'; subst; [reflexivity|].
          f_equal; [congruence|]. apply IHu; assumption. }
        subst rss1'. exists rss2. split; [exact F2|].
        rewrite concat_app, app_assoc. reflexivity.
    + rewrite all_references_fold_err. split; [discriminate|].
      intros [rss [F _]]. exfalso.
      apply List.Forall2_app_inv_l in F as (rss1 & rss2 & F1 & _ & _).
      apply Forall2_map_pair in F1.
      assert (Hok : extend_with_references cfg resolve (absolute_path pf)
                      (unresolved_references pf) acc = Ok (acc ++ concat rss1)).
      { apply extend_with_references_ok. exists rss1. split; [exact F1|reflexivity]. }
      congruence.
Qed.

Lemma all_references_fold_err_iff files : forall acc,
  (exists e, fold_left all_references_step files (Ok acc) = Err e) <->
  exists pf u e, In pf files /\ In u (unresolved_references pf) /\
    from_unresolved_reference cfg resolve u (absolute_path pf) = Err e.
Proof.
  induction files as [|pf files IH]; intros acc; cbn [fold_left In].
  - split; [intros [e H]; discriminate|intros (pf & u & e & [] & _)].
  - change (all_references_step (Ok acc) pf) with
      (extend_with_references cfg resolve (absolute_path pf) (unresolved_references pf) acc).
    destruct (extend_with_references cfg resolve (absolute_path pf)
                (unresolved_references pf) acc) as [acc'|e] eqn:E.
    + rewrite IH. split.
      * intros (pf' & u & e & Hin & Hu & He). exists pf', u, e. auto.
      * intros (pf' & u & e & [<-|Hin] & Hu & He).
        -- exfalso. destruct (proj2 (extend_with_references_err (absolute_path pf)
                                       (unresolved_references pf) acc)
                               (ex_intro _ u (ex_intro _ e (conj Hu He)))) as [e' He'].
           congruence.
        -- exists pf', u, e. auto.
    + rewrite all_references_fold_err. split.
      * intros _.
        destruct (proj1 (extend_with_references_err (absolute_path pf)
                           (unresolved_references pf) acc) (ex_intro _ e E))
          as (u & e' & Hu & He').
        exists pf, u, e'. auto.
      * intros _. exists e. reflexivity.
Qed.

End AllReferences.

(** [all_references] succeeds with [rs] exactly when every
    unresolved reference of every file builds its references, and [rs] is
    the concatenation of those, in file order and then reference order. *)
Theorem all_references_concatenates cfg resolve files rs :
  all_references_from cfg resolve files = Ok rs <->
  exists rss, Forall2 (fun '(p, u) r => from_unresolved_reference cfg resolve u p = Ok r)
                (file_reference_pairs files) rss /\
              rs = concat rss.
Proof.
  unfold all_references_from. rewrite all_references_fold_ok. reflexivity.
Qed.

(** [all_references] fails exactly when some unresolved reference
    of some file fails to build (its file is not under the absolute root). *)
Theorem all_references_error_iff cfg resolve files :
  (exists e, all_references_from cfg resolve files = Err e) <->
  exists pf u e, In pf files /\ In u (unresolved_references pf) /\
    from_unresolved_reference cfg resolve u (absolute_path pf) = Err e.
Proof.
  unfold all_references_from. apply all_references_fold_err_iff.
Qed.

(* ------------------------------------------------------------------ *)
(** ** Constant inference: one constant per file *)

Lemma mapM_outcome_Done_inv {A B} (g : A -> outcome B) (l : list A) ys :
  mapM g l = Done ys -> Forall2 (fun x y => g x = Done y) l ys.
Proof.
  revert ys. induction l as [|x l IH]; intros ys H.
  - simpl in H. injection H as <-. constructor.
  - simpl mapM in H. unfold mbind, outcome_mbind, obind in H.
    destruct (g x) as [y|] eqn:Ex; [|discriminate].
    destruct (mapM g l) as [ys'|] eqn:El; [|discriminate].
    injection H as <-. constructor; [exact Ex|]. apply IH. reflexivity.
Qed.

Lemma Forall2_map_eq {A B C} (f : A -> C) (h : B -> C) (R : A -> B -> Prop) l ys :
  (forall x y, R x y -> h y = f x) -> Forall2 R l ys -> map h ys = map f l.
Proof.
  intros Hfh F. induction F as [|x y l ys Hxy _ IH]; [reflexivity|].
  simpl. rewrite IH, (Hfh _ _ Hxy). reflexivity.
Qed.

Lemma map_as_fmap {A B} (f : A -> B) (l : list A) : map f l = f <$> l.
Proof. induction l as [|x l IH]; [reflexivity|]. simpl. rewrite IH. reflexivity. Qed.

(** The constants inferred from the autoload roots name each file
    at most once, even when several (nested) roots glob the same file. *)
Theorem inferred_constants_one_per_file camelize cfg defs :
  inferred_constants camelize cfg = Done defs ->
  NoDup (map cd_absolute_path_of_definition defs).
Proof.
  unfold inferred_constants. intros H. apply mapM_outcome_Done_inv in H.
  assert (Hfile : forall x d,
            (let '(absolute_path_of_definition, absolute_autoload_path) := x in
             match lookup_default_namespace (autoload_paths cfg) absolute_autoload_path with
             | None => Panic
             | Some default_namespace =>
                 inferred_constant_from_file camelize absolute_path_of_definition
                   absolute_autoload_path (acronyms cfg) default_namespace
             end) = Done d -> cd_absolute_path_of_definition d = fst x).
  { intros [f r] d Hd.
    destruct (lookup_default_namespace (autoload_paths cfg) r); [|discriminate].
    unfold inferred_constant_from_file in Hd.
    destruct (PathModel.strip_components _ _); [|discriminate].
    injection Hd as <-. reflexivity. }
  rewrite (Forall2_map_eq fst cd_absolute_path_of_definition _ _ _ Hfile H).
  rewrite map_as_fmap. apply NoDup_fst_map_to_list.
Qed.

Lemma inferred_constants_one_per_file_witness :
  let cfg := mkZeitwerkConfiguration
               [("/app/models"%string, ""%string); ("/app/models/concerns"%string, ""%string)] []
               ["/app/models/user.rb"%string; "/app/models/concerns/taggable.rb"%string] in
  let camelize := fun (s : string) (_ : list string) => s in
  let defs := match inferred_constants camelize cfg with Done defs => defs | Panic => [] end in
  inferred_constants camelize cfg = Done defs /\
  NoDup (map cd_absolute_path_of_definition defs).
Proof.
  intros cfg camelize defs. split; [vm_compute; reflexivity|].
  apply (inferred_constants_one_per_file camelize cfg). vm_compute; reflexivity.
Defined.

(* ------------------------------------------------------------------ *)
(** ** The constant resolver cache map *)

Lemma find_app {A} (f : A -> bool) (l1 l2 : list A) :
  List.find f (l1 ++ l2) =
  match List.find f l1 with Some x => Some x | None => List.find f l2 end.
Proof. induction l1 as [|x l1 IH]; [reflexivity|]. simpl. destruct (f x); [reflexivity|exact IH]. Qed.

Lemma file_definition_map_fold constants : forall (m : gmap string string) p,
  fold_left (fun file_definition_map constant =>
               <[cd_absolute_path_of_definition constant := cd_fully_qualified_name constant]>
                 file_definition_map) constants m !! p =
  match List.find (fun c => Str.eqb (cd_absolute_path_of_definition c) p) (rev constants) with
  | Some c => Some (cd_fully_qualified_name c)
  | None => m !! p
  end.
Proof.
  induction constants as [|c cs IH]; intros m p; [reflexivity|].
  simpl. rewrite IH, find_app. simpl. unfold Str.eqb.
  destruct (List.find _ (rev cs)); [reflexivity|].
  destruct (String.eqb_spec (cd_absolute_path_of_definition c) p) as [<-|Hne].
  - apply lookup_insert_eq.
  - rewrite lookup_insert_ne by congruence. reflexivity.
Qed.

(** In the map written to the constant resolver cache, a file is
    mapped to the name of the last constant defined in it, and a file with
    no constant is absent. *)
Theorem file_definition_map_last_wins constants p :
  file_definition_map constants !! p =
  cd_fully_qualified_name <$>
    List.find (fun c => Str.eqb (cd_absolute_path_of_definition c) p) (rev constants).
Proof.
  unfold file_definition_map. rewrite file_definition_map_fold.
  destruct (List.find _ _); [reflexivity|]. apply lookup_empty.
Qed.
